(** * CacheSimulator: a shallow embedding of Cache.cpp

    The development follows the source file top-down: the [Access] record
    and the [Cache] object, the constructor, the address decoder
    ([parseHex], [binStringToInt], [calcIndex], [calcTag], [calcOffset]),
    the set operations ([getOldest], [addAge], [isFull], [Insert]), the
    two access routines ([Read], [Write]) and the trace loop of
    [Cache::operator()].

    Conventions.
    - [size_t] is a 64-bit unsigned integer: a [Z] with the wrap-around
      written out ([wrap]).
    - [std::string] holding text read from the input is a [string]; the
      binary strings produced by [parseHex] are [list ascii].
    - [std::vector] is a [list]; [v[i]] out of range, an uninitialised
      local and a thrown [std::out_of_range] all end the run: [None]. *)

From Stdlib Require Import ZArith Lia Ascii String.
From stdpp Require Import base list strings.

Local Open Scope Z_scope.

(** ** Machine integers *)

Definition size_t_bits : Z := 64.
Definition SIZE_MAX : Z := 2 ^ size_t_bits - 1.
Definition wrap (z : Z) : Z := z mod 2 ^ size_t_bits.

(** [(size_t)std::log2(x)] for [x >= 1]: the integer part of the binary
    logarithm (exact on the powers of two, which is all the constructor is
    meant to receive). *)
Definition log2_size_t (x : Z) : Z := Z.log2 x.

(** A small error monad for the partial operations. *)
Notation "'do' x <- m ; f" :=
  (match m with Some x => f | None => None end)
  (at level 10, x pattern, m at level 100, f at level 200, only parsing).

(** ** class Access *)

Record Access := mkAccess {
  op_ : string;
  refSize_ : string;
  address_ : string;
  age_ : Z;
  offset_ : Z;
  index_ : Z;
  tag_ : Z;
  valid_ : bool;
  dirty_ : bool
}.

(** [Access::Access()] *)
Definition Access_default : Access :=
  mkAccess "" "" "" 0 0 0 0 false false.

(** [Access::Access(std::string s)]: note [valid_(1)]. *)
Definition Access_op (s : string) : Access :=
  mkAccess s "" "" 0 0 0 0 true false.

Definition setRefSize (t : string) (a : Access) : Access :=
  mkAccess (op_ a) t (address_ a) (age_ a) (offset_ a) (index_ a) (tag_ a)
           (valid_ a) (dirty_ a).
Definition setOffset (t : Z) (a : Access) : Access :=
  mkAccess (op_ a) (refSize_ a) (address_ a) (age_ a) t (index_ a) (tag_ a)
           (valid_ a) (dirty_ a).
Definition setIndex (t : Z) (a : Access) : Access :=
  mkAccess (op_ a) (refSize_ a) (address_ a) (age_ a) (offset_ a) t (tag_ a)
           (valid_ a) (dirty_ a).
Definition setTag (t : Z) (a : Access) : Access :=
  mkAccess (op_ a) (refSize_ a) (address_ a) (age_ a) (offset_ a) (index_ a) t
           (valid_ a) (dirty_ a).
(** [Access::addAge]: [++age_] on a [size_t]. *)
Definition Access_addAge (a : Access) : Access :=
  mkAccess (op_ a) (refSize_ a) (address_ a) (wrap (age_ a + 1)) (offset_ a)
           (index_ a) (tag_ a) (valid_ a) (dirty_ a).
Definition setValid (a : Access) : Access :=
  mkAccess (op_ a) (refSize_ a) (address_ a) (age_ a) (offset_ a) (index_ a)
           (tag_ a) true (dirty_ a).
Definition setDirty (a : Access) : Access :=
  mkAccess (op_ a) (refSize_ a) (address_ a) (age_ a) (offset_ a) (index_ a)
           (tag_ a) (valid_ a) true.

(** [Access::setAddress]: left-pads with ['0'] to 8 characters.  For an
    input longer than 8 characters [8 - t.length()] wraps around and the
    padding loop cannot complete: [None]. *)
Definition setAddress (t : string) (a : Access) : option Access :=
  let bits := wrap (8 - Z.of_nat (String.length t)) in
  if 8 <? bits then None
  else
    let s := (String.concat "" (replicate (Z.to_nat bits) "0") +:+ t)%string in
    Some (mkAccess (op_ a) (refSize_ a) s (age_ a) (offset_ a) (index_ a)
                   (tag_ a) (valid_ a) (dirty_ a)).

(** ** class Cache *)

Record Cache := mkCache {
  numBlocks_ : Z;
  numSets_ : Z;
  lineSize_ : Z;
  setSize_ : Z;
  cacheSize_ : Z;
  offsetBits_ : Z;
  indexBits_ : Z;
  tagBits_ : Z;
  hits_ : Z;
  accesses_ : Z;
  cache_ : list (list Access);
  trace_ : list Access;
  hitMiss_ : list bool
}.

Definition getIndexBits (c : Cache) : Z := indexBits_ c.
Definition getTagBits (c : Cache) : Z := tagBits_ c.
Definition getOffsetBits (c : Cache) : Z := offsetBits_ c.

(** [Cache::calcNumSets]: [c / (s * l)]; a zero divisor ends the run. *)
Definition calcNumSets (c s l : Z) : option Z :=
  if wrap (s * l) =? 0 then None else Some (c / wrap (s * l)).

(** [Cache::Cache]: the three numbers read from the configuration stream
    are [setSize], [lineSize], [cacheSize], in this order.  [std::log2(0)]
    is minus infinity, whose conversion to [size_t] is undefined: [None]. *)
Definition Cache_ctor (setSize lineSize cacheSize : Z) : option Cache :=
  do numSets <- calcNumSets cacheSize setSize lineSize;
  if (cacheSize =? 0) || (lineSize =? 0) || (setSize =? 0) then None
  else
    let indexBits := log2_size_t cacheSize in
    let offsetBits := log2_size_t lineSize in
    let tagBits := wrap (wrap (32 - indexBits) + log2_size_t setSize) in
    Some (mkCache (wrap (numSets * setSize)) numSets lineSize setSize cacheSize
                  offsetBits indexBits tagBits 0 0
                  (replicate (Z.to_nat numSets)
                             (replicate (Z.to_nat setSize) Access_default))
                  [] []).

(** ** Address decoding *)

(** One iteration of the [if]/[else if] chain of [Cache::parseHex]: the
    sixteen characters ['0'..'9'], ['a'..'f'] append four bits; the chain
    has no final [else], so any other character appends nothing. *)
Definition hexBits (c : ascii) : list ascii :=
  match c with
  | "0" => ["0"; "0"; "0"; "0"]
  | "1" => ["0"; "0"; "0"; "1"]
  | "2" => ["0"; "0"; "1"; "0"]
  | "3" => ["0"; "0"; "1"; "1"]
  | "4" => ["0"; "1"; "0"; "0"]
  | "5" => ["0"; "1"; "0"; "1"]
  | "6" => ["0"; "1"; "1"; "0"]
  | "7" => ["0"; "1"; "1"; "1"]
  | "8" => ["1"; "0"; "0"; "0"]
  | "9" => ["1"; "0"; "0"; "1"]
  | "a" => ["1"; "0"; "1"; "0"]
  | "b" => ["1"; "0"; "1"; "1"]
  | "c" => ["1"; "1"; "0"; "0"]
  | "d" => ["1"; "1"; "0"; "1"]
  | "e" => ["1"; "1"; "1"; "0"]
  | "f" => ["1"; "1"; "1"; "1"]
  | _ => []
  end%char.

Fixpoint parseHex (s : string) : list ascii :=
  match s with
  | EmptyString => []
  | String c r => hexBits c ++ parseHex r
  end.

(** The loop of [Cache::binStringToInt]: [index] runs from the last
    character down to the first while [i] counts the power of two up. *)
Fixpoint binStringToInt_loop (rs : list ascii) (i : Z) (num : Z) : Z :=
  match rs with
  | [] => num
  | ch :: rest =>
      binStringToInt_loop rest (i + 1)
        (if Ascii.eqb ch "1" then wrap (num + 2 ^ i) else num)
  end.

Definition binStringToInt (s : list ascii) : Z :=
  binStringToInt_loop (rev s) 0 0.

(** [std::string::substr(pos, n)]: throws [std::out_of_range] when
    [pos > size()], otherwise returns at most [n] characters from [pos]. *)
Definition substr (b : list ascii) (pos n : Z) : option (list ascii) :=
  if Z.of_nat (length b) <? pos then None
  else Some (take (Z.to_nat n) (drop (Z.to_nat pos) b)).

Definition calcIndex (c : Cache) (s : string) : option Z :=
  let b := parseHex s in
  let indexStart := wrap (wrap (32 - offsetBits_ c) - indexBits_ c) in
  do indexStr <- substr b indexStart (indexBits_ c);
  let blockNum := binStringToInt indexStr in
  if numSets_ c =? 0 then None else Some (blockNum mod numSets_ c).

Definition calcTag (c : Cache) (s : string) : option Z :=
  let b := parseHex s in
  do tagStr <- substr b 0 (tagBits_ c);
  Some (binStringToInt tagStr).

Definition calcOffset (c : Cache) (s : string) : option Z :=
  let b := parseHex s in
  let offsetStart := wrap (32 - offsetBits_ c) in
  do offsetStr <- substr b offsetStart (offsetBits_ c);
  Some (binStringToInt offsetStr).

(** ** Operations on one set, [cache_[t]] *)

(** The loop of [Cache::getOldest]: [age] starts at 0 and [oldest] starts
    uninitialised ([None]); a slot replaces the candidate only when it is
    valid and strictly older. *)
Fixpoint getOldest_loop (s : list Access) (i : nat) (age : Z)
    (oldest : option nat) : option nat :=
  match s with
  | [] => oldest
  | x :: rest =>
      if valid_ x && (age <? age_ x)
      then getOldest_loop rest (S i) (age_ x) (Some i)
      else getOldest_loop rest (S i) age oldest
  end.

Definition getOldest_set (s : list Access) : option nat :=
  getOldest_loop s 0%nat 0 None.

Definition addAge_set (s : list Access) : list Access :=
  (fun x => if valid_ x then Access_addAge x else x) <$> s.

Fixpoint isFull_set (s : list Access) : bool :=
  match s with
  | [] => true
  | x :: rest => if negb (valid_ x) then false else isFull_set rest
  end.

(** [Cache::Insert] on one set: the first slot that is not valid receives
    [a]; the flag tells whether there was one. *)
Fixpoint Insert_set (s : list Access) (a : Access) : bool * list Access :=
  match s with
  | [] => (false, [])
  | x :: rest =>
      if negb (valid_ x) then (true, a :: rest)
      else let '(b, rest') := Insert_set rest a in (b, x :: rest')
  end.

(** The hit scan shared by [Read] and [Write]: the position of the first
    valid slot whose tag equals [tag], if any. *)
Fixpoint findTag (s : list Access) (i : nat) (tag : Z) : option nat :=
  match s with
  | [] => None
  | x :: rest =>
      if valid_ x && (tag_ x =? tag) then Some i
      else findTag rest (S i) tag
  end.

(** ** Operations on the cache object *)

Definition set_store (c : Cache) (sets : list (list Access))
    (hm : list bool) : Cache :=
  mkCache (numBlocks_ c) (numSets_ c) (lineSize_ c) (setSize_ c)
          (cacheSize_ c) (offsetBits_ c) (indexBits_ c) (tagBits_ c)
          (hits_ c) (accesses_ c) sets (trace_ c) hm.

Definition getOldest (c : Cache) (t : Z) : option nat :=
  do s <- cache_ c !! Z.to_nat t;
  getOldest_set s.

Definition addAge (c : Cache) (t : Z) : option Cache :=
  do s <- cache_ c !! Z.to_nat t;
  Some (set_store c (<[Z.to_nat t := addAge_set s]> (cache_ c)) (hitMiss_ c)).

Definition isFull (c : Cache) (t : Z) : option bool :=
  do s <- cache_ c !! Z.to_nat t;
  Some (isFull_set s).

Definition Insert (c : Cache) (t : Z) (a : Access) : option (bool * Cache) :=
  do s <- cache_ c !! Z.to_nat t;
  let '(b, s') := Insert_set s a in
  Some (b, set_store c (<[Z.to_nat t := s']> (cache_ c)) (hitMiss_ c)).

(** The miss branch common to [Read] and [Write] (the two bodies are the
    same text): the access is marked valid, the miss is logged, and the
    line goes to the oldest slot of a full set or to the first free one.
    The result carries the access back because [r] is a reference. *)
Definition miss_branch (c : Cache) (t : Z) (r : Access)
    : option (bool * Access * Cache) :=
  let r := setValid r in
  let c := set_store c (cache_ c) (hitMiss_ c ++ [false]) in
  do full <- isFull c t;
  if full then
    do j <- getOldest c t;
    do s <- cache_ c !! Z.to_nat t;
    if (j <? length s)%nat
    then Some (false, r,
               set_store c (<[Z.to_nat t := <[j := r]> s]> (cache_ c))
                         (hitMiss_ c))
    else None
  else
    do res <- Insert c t r;
    Some (false, r, snd res).

(** [Cache::Read]: returns the hit flag, the access (a reference in the
    source, marked valid on a miss) and the new cache object. *)
Definition Read (c : Cache) (r : Access) : option (bool * Access * Cache) :=
  let t := index_ r in
  do c <- addAge c t;
  do s <- cache_ c !! Z.to_nat t;
  match findTag s 0%nat (tag_ r) with
  | Some i =>
      Some (true, r, set_store c (cache_ c) (hitMiss_ c ++ [true]))
  | None => miss_branch c t r
  end.

(** [Cache::Write]: as [Read], and a hit sets the dirty flag of the
    matched slot. *)
Definition Write (c : Cache) (w : Access) : option (bool * Access * Cache) :=
  let t := index_ w in
  do c <- addAge c t;
  do s <- cache_ c !! Z.to_nat t;
  match findTag s 0%nat (tag_ w) with
  | Some i =>
      do x <- s !! i;
      Some (true, w,
            set_store c (<[Z.to_nat t := <[i := setDirty x]> s]> (cache_ c))
                      (hitMiss_ c ++ [true]))
  | None => miss_branch c t w
  end.

(** ** [Cache::operator()]: building and replaying the trace *)

Definition set_trace (c : Cache) (tr : list Access) : Cache :=
  mkCache (numBlocks_ c) (numSets_ c) (lineSize_ c) (setSize_ c)
          (cacheSize_ c) (offsetBits_ c) (indexBits_ c) (tagBits_ c)
          (hits_ c) (accesses_ c) (cache_ c) tr (hitMiss_ c).

Definition set_counters (c : Cache) (h a : Z) : Cache :=
  mkCache (numBlocks_ c) (numSets_ c) (lineSize_ c) (setSize_ c)
          (cacheSize_ c) (offsetBits_ c) (indexBits_ c) (tagBits_ c)
          h a (cache_ c) (trace_ c) (hitMiss_ c).

(** The operation string chosen from the first token of a line. *)
Definition op_of_token (tok : string) : string :=
  if String.eqb tok "R" then "Read"
  else if String.eqb tok "W" then "Write"
  else "".

(** The body of the first [for] loop for one line, given as its tokens
    (the pieces between colons).  A line without tokens is skipped; a line
    with a first token but fewer than three dereferences the end iterator:
    [None].  The access is pushed whatever its operation string is. *)
Definition parse_line (c : Cache) (tokens : list string) : option Cache :=
  match tokens with
  | [] => Some c
  | tok :: rest =>
      let a := Access_op (op_of_token tok) in
      match rest with
      | refSize :: addr :: _ =>
          let a := setRefSize refSize a in
          do a <- setAddress addr a;
          do i <- calcIndex c (address_ a);
          let a := setIndex i a in
          do o <- calcOffset c (address_ a);
          let a := setOffset o a in
          do tg <- calcTag c (address_ a);
          let a := setTag tg a in
          Some (set_trace c (trace_ c ++ [a]))
      | _ => None
      end
  end.

Fixpoint build_trace (c : Cache) (lines : list (list string)) : option Cache :=
  match lines with
  | [] => Some c
  | l :: rest => do c' <- parse_line c l; build_trace c' rest
  end.

(** The tally after a call of [Read] or [Write]: [++hits_] on a hit and
    [++accesses_] on both branches. *)
Definition tally (c : Cache) (hit : bool) : Cache :=
  set_counters c (if hit then wrap (hits_ c + 1) else hits_ c)
                 (wrap (accesses_ c + 1)).

(** One iteration of the second [for] loop, at position [i] of [trace_]:
    only the operation strings "Read" and "Write" reach the cache and the
    counters; any other record is passed over. *)
Definition process_step (c : Cache) (i : nat) : option Cache :=
  do a <- trace_ c !! i;
  if String.eqb (op_ a) "Read" then
    do res <- Read c a;
    let c' := snd res in
    Some (tally (set_trace c' (<[i := snd (fst res)]> (trace_ c')))
                (fst (fst res)))
  else if String.eqb (op_ a) "Write" then
    do res <- Write c a;
    let c' := snd res in
    Some (tally (set_trace c' (<[i := snd (fst res)]> (trace_ c')))
                (fst (fst res)))
  else Some c.

(** [n] iterations of the second loop, starting at position [i]. *)
Fixpoint process_loop (n : nat) (i : nat) (c : Cache) : option Cache :=
  match n with
  | O => Some c
  | S n' => do c' <- process_step c i; process_loop n' (S i) c'
  end.

Definition operator_call (c : Cache) (lines : list (list string))
    : option Cache :=
  do c1 <- build_trace c lines;
  process_loop (length (trace_ c1)) 0%nat c1.

(** The whole run of [main] up to [Display]: construction from the three
    configuration numbers, then the trace. *)
Definition simulate (setSize lineSize cacheSize : Z)
    (lines : list (list string)) : option Cache :=
  do c <- Cache_ctor setSize lineSize cacheSize;
  operator_call c lines.


(** The three decoding calls of the first loop, in the order of the
    source: index, offset, tag.  The result is (tag, index, offset). *)
Definition decode (c : Cache) (addr : string) : option (Z * Z * Z) :=
  do i <- calcIndex c addr;
  do o <- calcOffset c addr;
  do tg <- calcTag c addr;
  Some (tg, i, o).

(** * Vocabulary of the statements *)

(** What [addAge] does to one slot. *)
Definition aged (x : Access) : Access :=
  if valid_ x then Access_addAge x else x.

(** [is_oldest s j]: slot [j] is valid, no valid slot is older, and no
    valid slot of the same age comes before it. *)
Definition is_oldest (s : list Access) (j : nat) : Prop :=
  exists x, s !! j = Some x /\ valid_ x = true /\
    (forall k y, s !! k = Some y -> valid_ y = true -> age_ y <= age_ x) /\
    (forall k y, s !! k = Some y -> valid_ y = true ->
                 age_ y = age_ x -> (j <= k)%nat).

Definition older_than (age : Z) (x : Access) : Prop :=
  valid_ x = true /\ age < age_ x.

(** [Read] and [Write] seen from the target set.

    [miss_set s r] is what the miss branch leaves in a set whose aged
    content is [s]; [Read_set] and [Write_set] are the two routines on the
    content [s] of the target set before the call.  The lemmas
    [Read_unfold] and [Write_unfold] show that the routines on the cache
    object act on the target set in exactly this way. *)
Definition miss_set (s : list Access) (r : Access) : option (list Access) :=
  if isFull_set s then
    do j <- getOldest_set s; Some (<[j := setValid r]> s)
  else Some (snd (Insert_set s (setValid r))).

Definition Read_set (s : list Access) (r : Access)
    : option (bool * list Access) :=
  match findTag (addAge_set s) 0%nat (tag_ r) with
  | Some i => Some (true, addAge_set s)
  | None => do s' <- miss_set (addAge_set s) r; Some (false, s')
  end.

Definition Write_set (s : list Access) (w : Access)
    : option (bool * list Access) :=
  match findTag (addAge_set s) 0%nat (tag_ w) with
  | Some i =>
      do x <- addAge_set s !! i;
      Some (true, <[i := setDirty x]> (addAge_set s))
  | None => do s' <- miss_set (addAge_set s) w; Some (false, s')
  end.

(** The cache object after an access that left [s'] in set [t] with
    outcome [hit]. *)
Definition after_access (c : Cache) (t : Z) (s' : list Access) (hit : bool)
    : Cache :=
  set_store c (<[Z.to_nat t := s']> (cache_ c)) (hitMiss_ c ++ [hit]).

(** Small concrete objects used to exercise the statements. *)
Definition ex_line (tag age : Z) (v d : bool) : Access :=
  mkAccess "Read" "4" "00000000" age 0 0 tag v d.

Definition ex_access (tag : Z) : Access :=
  mkAccess "Read" "4" "00000000" 0 0 0 tag true false.

Definition ex_cache (s : list Access) : Cache :=
  mkCache 2 1 4 2 8 2 3 30 0 0 [s] [] [].

(** The part of a line that decides hits and evictions. *)
Definition line_core (x : Access) : bool * Z * Z :=
  (valid_ x, tag_ x, age_ x).

Definition store_core (sets : list (list Access))
    : list (list (bool * Z * Z)) :=
  (fun s : list Access => line_core <$> s) <$> sets.

(** The cache objects reached from [c0] by calls of [Read] and [Write]
    that return. *)
Inductive reachable (c0 : Cache) : Cache -> Prop :=
| reach_init : reachable c0 c0
| reach_step c (access : Cache -> Access -> option (bool * Access * Cache))
    r hit r' c' :
    reachable c0 c ->
    access = Read \/ access = Write ->
    access c r = Some (hit, r', c') ->
    reachable c0 c'.

(** No two valid slots of a set carry the same tag. *)
Definition tags_distinct (s : list Access) : Prop :=
  forall i j x y, s !! i = Some x -> s !! j = Some y ->
    valid_ x = true -> valid_ y = true -> tag_ x = tag_ y -> i = j.

(** A configuration of compatible powers of two: [A = 2^a] lines per set,
    [L = 2^l] bytes per line, [C = 2^k] bytes in all, with at least one
    set ([a + l <= k]) and no more bytes than a 32-bit address reaches. *)
Definition valid_config (A L C : Z) : Prop :=
  exists a l k, 0 <= a /\ 0 <= l /\ a + l <= k <= 32 /\
                A = 2 ^ a /\ L = 2 ^ l /\ C = 2 ^ k.

(** The trace of the worked example: three reads. *)
Definition ex_trace : list (list string) :=
  [["R"; "4"; "00000000"]; ["R"; "4"; "00000010"]; ["R"; "4"; "00000000"]].

(** The gate of the second loop: the operation strings that reach [Read]
    or [Write] and the counters. *)
Definition is_tallied (o : string) : bool :=
  String.eqb o "Read" || String.eqb o "Write".

(** How many of the operation strings [ops] pass the gate. *)
Fixpoint tallied (ops : list string) : nat :=
  match ops with
  | [] => 0
  | o :: rest => ((if is_tallied o then 1 else 0) + tallied rest)%nat
  end.

(** The number of recorded hits in the outcome log. *)
Fixpoint count_hits (hm : list bool) : Z :=
  match hm with
  | [] => 0
  | h :: rest => (if h then 1 else 0) + count_hits rest
  end.

(** What holds of the cache object after [i] iterations of the second
    loop over a trace whose operation strings are [ops]. *)
Record loop_inv (ops : list string) (i : nat) (c : Cache) : Prop := {
  inv_ops : op_ <$> trace_ c = ops;
  inv_fresh : forall k a, trace_ c !! k = Some a ->
      age_ a = 0 /\ (Z.to_nat (index_ a) < length (cache_ c))%nat;
  inv_sets : forall t s, cache_ c !! t = Some s ->
      s <> [] /\
      forall k z, s !! k = Some z -> valid_ z = true ->
                  0 <= age_ z <= Z.of_nat i;
  inv_log : length (hitMiss_ c) = tallied (take i ops);
  inv_accesses : accesses_ c = Z.of_nat (tallied (take i ops));
  inv_hits : hits_ c = count_hits (hitMiss_ c)
}.

(** The number of recorded misses in the outcome log. *)
Fixpoint count_misses (hm : list bool) : Z :=
  match hm with
  | [] => 0
  | h :: rest => (if h then 0 else 1) + count_misses rest
  end.

(** An access as the first loop pushes it on the trace of cache [c]. *)
Definition fresh_access (c : Cache) (a : Access) : Prop :=
  age_ a = 0 /\ valid_ a = true /\ dirty_ a = false /\
  numSets_ c <> 0 /\ index_ a = index_ a mod numSets_ c.

(** A trace with one record whose operation token is neither R nor W. *)
Definition ex_trace_unknown_op : list (list string) :=
  [["X"; "4"; "00000000"]].

(** The cache object of configuration (1, 4, 16) as constructed, and with
    the trace of the worked example built. *)
Definition ex_c0 : Cache :=
  Eval vm_compute in from_option id (ex_cache []) (Cache_ctor 1 4 16).

Definition ex_c1 : Cache :=
  Eval vm_compute in from_option id ex_c0 (build_trace ex_c0 ex_trace).

(** The cache object of configuration (2, 4, 16), then after a read of
    tag 1 and a write of tag 2 in set 0. *)
Definition ex_d0 : Cache :=
  Eval vm_compute in from_option id (ex_cache []) (Cache_ctor 2 4 16).

Definition ex_d1 : Cache :=
  Eval vm_compute in
    from_option snd ex_d0 (Read ex_d0 (ex_access 1)).

Definition ex_d2 : Cache :=
  Eval vm_compute in
    from_option snd ex_d1 (Write ex_d1 (ex_access 2)).

(** The value of a binary string read from its last character, as the
    loop of [binStringToInt] does: [lsb_value] takes the reversed string. *)
Fixpoint lsb_value (rs : list ascii) : Z :=
  match rs with
  | [] => 0
  | ch :: rest => (if Ascii.eqb ch "1" then 1 else 0) + 2 * lsb_value rest
  end.

Definition bin_value (b : list ascii) : Z := lsb_value (rev b).

(** The characters that [parseHex] turns into bits. *)
Definition parsed_digit (ch : ascii) : bool :=
  match hexBits ch with [] => false | _ => true end.

Fixpoint all_parsed (s : string) : bool :=
  match s with
  | EmptyString => true
  | String ch rest => parsed_digit ch && all_parsed rest
  end.

(** How many characters of [s] are turned into bits. *)
Fixpoint count_parsed (s : string) : nat :=
  match s with
  | EmptyString => 0
  | String ch rest =>
      ((if parsed_digit ch then 1 else 0) + count_parsed rest)%nat
  end.

(** The usual value of a hexadecimal digit, in either case, and of a
    hexadecimal numeral: this is what the address means, independently of
    the decoder. *)
Definition hex_digit_value (ch : ascii) : option Z :=
  let code := Z.of_N (N_of_ascii ch) in
  if (48 <=? code) && (code <=? 57) then Some (code - 48)
  else if (97 <=? code) && (code <=? 102) then Some (code - 87)
  else if (65 <=? code) && (code <=? 70) then Some (code - 55)
  else None.

Fixpoint address_value (s : string) : option Z :=
  match s with
  | EmptyString => Some 0
  | String ch rest =>
      match hex_digit_value ch, address_value rest with
      | Some d, Some v => Some (d * 16 ^ Z.of_nat (String.length rest) + v)
      | _, _ => None
      end
  end.

(** The fields put back side by side: the tag, then [indexWidth] bits of
    index, then [offsetWidth] bits of offset. *)
Definition recombine (tg ix off indexWidth offsetWidth : Z) : Z :=
  (tg * 2 ^ indexWidth + ix) * 2 ^ offsetWidth + off.

(** The cache object of configuration (1, 16, 256): 16 sets, 4 offset
    bits. *)
Definition ex_e0 : Cache :=
  Eval vm_compute in from_option id (ex_cache []) (Cache_ctor 1 16 256).

(** * Vocabulary of the further properties *)

(** No two valid slots of a set have the same age. *)
Definition ages_distinct (s : list Access) : Prop :=
  forall i j x y, s !! i = Some x -> s !! j = Some y ->
    valid_ x = true -> valid_ y = true -> age_ x = age_ y -> i = j.

(** The cache objects reached from [c0] by [n] calls of [Read] and [Write]
    on accesses of age 0, as all the accesses of a trace are. *)
Inductive replayed (c0 : Cache) : nat -> Cache -> Prop :=
| replayed_O : replayed c0 0 c0
| replayed_S n c (access : Cache -> Access -> option (bool * Access * Cache))
    r hit r' c' :
    replayed c0 n c ->
    access = Read \/ access = Write ->
    age_ r = 0 ->
    access c r = Some (hit, r', c') ->
    replayed c0 (S n) c'.

(** How many slots of a set are valid. *)
Fixpoint count_valid (s : list Access) : nat :=
  match s with
  | [] => 0
  | x :: rest => ((if valid_ x then 1 else 0) + count_valid rest)%nat
  end.

(** [Cache::Display], the table: one row per record of [trace_], with the
    outcome read at the same position of [hitMiss_]; reading the log past
    its end is undefined: [None].  The layout of the text is left out. *)
Record Row := mkRow {
  row_num : nat;
  row_op : string;
  row_address : string;
  row_tag : Z;
  row_index : Z;
  row_offset : Z;
  row_hit : bool
}.

Fixpoint Display_loop (tr : list Access) (counter : nat) (hm : list bool)
    : option (list Row) :=
  match tr with
  | [] => Some []
  | a :: rest =>
      do h <- hm !! counter;
      do rows <- Display_loop rest (S counter) hm;
      Some (mkRow counter (op_ a) (address_ a) (tag_ a) (index_ a)
                  (offset_ a) h :: rows)
  end.

Definition Display_rows (c : Cache) : option (list Row) :=
  Display_loop (trace_ c) 0%nat (hitMiss_ c).

(** [Cache::Display], the two totals of the summary: hits, and misses as
    the unsigned difference [accesses_ - hits_].  The two rates are
    floating-point quotients and are left out. *)
Definition Display_totals (c : Cache) : Z * Z :=
  (hits_ c, wrap (accesses_ c - hits_ c)).

(** A line of the trace file with at least one token. *)
Definition has_tokens (l : list string) : bool :=
  match l with [] => false | _ => true end.

(** A line of three tokens whose address has at most 8 characters, all of
    them digits known to [parseHex]. *)
Definition well_formed_line (l : list string) : Prop :=
  exists tok refSize addr,
    l = [tok; refSize; addr] /\
    (String.length addr <= 8)%nat /\ all_parsed addr = true.

(** The record that the first loop of [operator()] builds from a line
    with tokens, on cache [c]. *)
Definition record_of_line (c : Cache) (l : list string) (a : Access) : Prop :=
  exists tok refSize addr rest a0,
    l = tok :: refSize :: addr :: rest /\
    op_ a = op_of_token tok /\ refSize_ a = refSize /\
    setAddress addr (Access_op (op_of_token tok)) = Some a0 /\
    address_ a = address_ a0 /\
    decode c (address_ a) = Some (tag_ a, index_ a, offset_ a) /\
    age_ a = 0 /\ valid_ a = true /\ dirty_ a = false.

(** The cache objects reached from [c0] by calls of [Read] and [Write],
    with the accesses made so far, oldest first. *)
Inductive replayed_hist (c0 : Cache) : list Access -> Cache -> Prop :=
| hist_nil : replayed_hist c0 [] c0
| hist_snoc h c (access : Cache -> Access -> option (bool * Access * Cache))
    r hit r' c' :
    replayed_hist c0 h c ->
    access = Read \/ access = Write ->
    access c r = Some (hit, r', c') ->
    replayed_hist c0 (h ++ [r]) c'.

(** * Properties *)

(** ** Machine arithmetic *)

Lemma wrap_small z : 0 <= z <= SIZE_MAX -> wrap z = z.
Proof.
  unfold wrap, SIZE_MAX. intros H. apply Z.mod_small. lia.
Qed.

Lemma wrap_range z : 0 <= wrap z <= SIZE_MAX.
Proof.
  unfold wrap, SIZE_MAX, size_t_bits.
  pose proof (Z.mod_pos_bound z (2 ^ 64) ltac:(lia)). lia.
Qed.

(** ** The set operations *)

Section SetOps.
Implicit Types (s : list Access) (x y a : Access).

Lemma addAge_set_lookup s i : addAge_set s !! i = aged <$> s !! i.
Proof. unfold addAge_set. apply list_lookup_fmap. Qed.

Lemma addAge_set_length s : length (addAge_set s) = length s.
Proof. unfold addAge_set. apply length_fmap. Qed.

Lemma aged_valid x : valid_ (aged x) = valid_ x.
Proof. unfold aged. destruct (valid_ x) eqn:E; simpl; auto. Qed.

Lemma aged_tag x : tag_ (aged x) = tag_ x.
Proof. unfold aged. destruct (valid_ x); reflexivity. Qed.

Lemma aged_dirty x : dirty_ (aged x) = dirty_ x.
Proof. unfold aged. destruct (valid_ x); reflexivity. Qed.

Lemma aged_age_valid x :
  valid_ x = true -> age_ (aged x) = wrap (age_ x + 1).
Proof. unfold aged. intros ->. reflexivity. Qed.

Lemma aged_age_invalid x : valid_ x = false -> aged x = x.
Proof. unfold aged. intros ->. reflexivity. Qed.

Lemma isFull_set_Forall s :
  isFull_set s = true <-> Forall (fun x => valid_ x = true) s.
Proof.
  induction s as [|x s IH]; simpl.
  - split; auto.
  - destruct (valid_ x) eqn:E; simpl.
    + rewrite IH. split; [intros; constructor; auto | inversion 1; auto].
    + split; [discriminate | inversion 1; congruence].
Qed.

Lemma isFull_set_addAge s : isFull_set (addAge_set s) = isFull_set s.
Proof.
  induction s as [|x s IH]; simpl; auto.
  fold (aged x). rewrite aged_valid. fold (addAge_set s). rewrite IH. auto.
Qed.

Lemma findTag_addAge s i tag :
  findTag (addAge_set s) i tag = findTag s i tag.
Proof.
  revert i. induction s as [|x s IH]; intros i; simpl; auto.
  fold (aged x). rewrite aged_valid, aged_tag. fold (addAge_set s).
  rewrite IH. reflexivity.
Qed.

Lemma findTag_Some s i tag j :
  findTag s i tag = Some j ->
  exists k x, j = (i + k)%nat /\ s !! k = Some x /\
              valid_ x = true /\ tag_ x = tag /\
              forall k' y, (k' < k)%nat -> s !! k' = Some y ->
                           ~ (valid_ y = true /\ tag_ y = tag).
Proof.
  revert i. induction s as [|x s IH]; intros i; simpl; [discriminate|].
  destruct (valid_ x && (tag_ x =? tag)) eqn:E.
  - intros [= <-]. apply andb_true_iff in E as [Hv Ht].
    apply Z.eqb_eq in Ht. exists 0%nat, x.
    repeat split; auto with lia.
  - intros H. apply IH in H as (k & y & -> & Hk & Hv & Ht & Hfirst).
    exists (S k), y. repeat split; auto with lia.
    intros [|k'] z Hlt Hz; simpl in Hz.
    + injection Hz as <-. intros [Hv' Ht']. rewrite Hv' in E. simpl in E.
      apply Z.eqb_neq in E. auto.
    + apply (Hfirst k' z); auto with lia.
Qed.

Lemma findTag_None s i tag :
  findTag s i tag = None <->
  forall k x, s !! k = Some x -> ~ (valid_ x = true /\ tag_ x = tag).
Proof.
  revert i. induction s as [|x s IH]; intros i; simpl.
  - split; auto. intros _ k x Hk. rewrite lookup_nil in Hk. discriminate.
  - destruct (valid_ x && (tag_ x =? tag)) eqn:E.
    + split; [discriminate|]. intros H. exfalso.
      apply andb_true_iff in E as [Hv Ht]. apply Z.eqb_eq in Ht.
      apply (H 0%nat x); auto.
    + rewrite IH. split.
      * intros H [|k] y Hk; simpl in Hk.
        -- injection Hk as <-. intros [Hv Ht]. rewrite Hv in E. simpl in E.
           apply Z.eqb_neq in E. auto.
        -- eapply H; eauto.
      * intros H k y Hk. apply (H (S k) y). auto.
Qed.

Lemma older_than_dec age s :
  {Exists (older_than age) s} + {Forall (fun x => ~ older_than age x) s}.
Proof.
  induction s as [|x s [IH|IH]].
  - right. constructor.
  - left. constructor 2. exact IH.
  - destruct (valid_ x) eqn:Hv.
    + destruct (Z_lt_dec age (age_ x)) as [Hlt|Hge].
      * left. constructor 1. split; auto.
      * right. constructor; auto. intros [_ H]. auto.
    + right. constructor; auto. intros [H _]. congruence.
Defined.

Lemma getOldest_loop_keep s i age oldest :
  Forall (fun x => ~ older_than age x) s ->
  getOldest_loop s i age oldest = oldest.
Proof.
  revert i. induction s as [|x s IH]; intros i H; simpl; auto.
  inversion H as [|? ? Hx Hs]; subst.
  destruct (valid_ x && (age <? age_ x)) eqn:E.
  - exfalso. apply Hx. apply andb_true_iff in E as [Hv Hlt].
    apply Z.ltb_lt in Hlt. split; auto.
  - apply IH; auto.
Qed.

Lemma getOldest_loop_pick s : forall i age oldest,
  Exists (older_than age) s ->
  exists k, getOldest_loop s i age oldest = Some (i + k)%nat /\
            is_oldest s k /\
            exists x, s !! k = Some x /\ age < age_ x.
Proof.
  induction s as [|x s IH]; intros i age oldest Hex.
  - inversion Hex.
  - simpl. destruct (valid_ x && (age <? age_ x)) eqn:E.
    + apply andb_true_iff in E as [Hv Hlt]. apply Z.ltb_lt in Hlt.
      destruct (older_than_dec (age_ x) s) as [Hmore|Hnone].
      * destruct (IH (S i) (age_ x) (Some i) Hmore)
          as (k & Hres & (z & Hz & Hzv & Hmax & Hfirst) & (z' & Hz' & Hlt')).
        assert (z' = z) as -> by congruence.
        exists (S k). split; [rewrite Hres; f_equal; lia|]. split.
        -- exists z. repeat split; auto.
           ++ intros [|k'] y Hy Hyv; simpl in Hy.
              ** injection Hy as <-. lia.
              ** eapply Hmax; eauto.
           ++ intros [|k'] y Hy Hyv Heq; simpl in Hy.
              ** injection Hy as <-. lia.
              ** apply le_n_S. eapply Hfirst; eauto.
        -- exists z. split; auto. lia.
      * rewrite getOldest_loop_keep by auto.
        exists 0%nat. split; [f_equal; lia|]. split.
        -- exists x. repeat split; auto with lia.
           intros [|k'] y Hy Hyv; simpl in Hy.
           ++ injection Hy as <-. lia.
           ++ rewrite Forall_lookup in Hnone.
              specialize (Hnone k' y Hy). unfold older_than in Hnone.
              destruct (Z_le_dec (age_ y) (age_ x)); auto.
              exfalso. apply Hnone. split; auto. lia.
        -- exists x. split; auto.
    + assert (Hx : ~ older_than age x).
      { intros [Hv Hlt]. rewrite Hv in E. simpl in E.
        apply Z.ltb_ge in E. lia. }
      inversion Hex as [? ? Hhd|? ? Htl]; subst; [contradiction|].
      destruct (IH (S i) age oldest Htl)
        as (k & Hres & (z & Hz & Hzv & Hmax & Hfirst) & (z' & Hz' & Hlt')).
      assert (z' = z) as -> by congruence.
      exists (S k). split; [rewrite Hres; f_equal; lia|]. split.
      * exists z. repeat split; auto.
        -- intros [|k'] y Hy Hyv; simpl in Hy.
           ++ injection Hy as <-.
              destruct (Z_le_dec (age_ x) (age_ z)); auto.
              exfalso. apply Hx. split; auto. lia.
           ++ eapply Hmax; eauto.
        -- intros [|k'] y Hy Hyv Heq; simpl in Hy.
           ++ injection Hy as <-. exfalso. apply Hx. split; auto. lia.
           ++ apply le_n_S. eapply Hfirst; eauto.
      * exists z. split; auto.
Qed.

Lemma getOldest_set_Some s j :
  getOldest_set s = Some j ->
  is_oldest s j /\ exists x, s !! j = Some x /\ 0 < age_ x.
Proof.
  unfold getOldest_set. intros H.
  destruct (older_than_dec 0 s) as [Hex|Hnone].
  - destruct (getOldest_loop_pick s 0%nat 0 None Hex) as (k & Hk & Hold & Hpos).
    rewrite Hk in H. injection H as <-. auto.
  - rewrite getOldest_loop_keep in H by auto. discriminate.
Qed.

Lemma getOldest_set_None s :
  getOldest_set s = None <-> Forall (fun x => ~ older_than 0 x) s.
Proof.
  unfold getOldest_set. split.
  - intros H. destruct (older_than_dec 0 s) as [Hex|Hnone]; auto.
    destruct (getOldest_loop_pick s 0%nat 0 None Hex) as (k & Hk & _).
    congruence.
  - intros H. apply getOldest_loop_keep. exact H.
Qed.

Lemma is_oldest_lt s j : is_oldest s j -> (j < length s)%nat.
Proof. intros (x & Hx & _). eapply lookup_lt_Some; eauto. Qed.

Lemma is_oldest_unique s j k : is_oldest s j -> is_oldest s k -> j = k.
Proof.
  intros (x & Hx & Hxv & Hxmax & Hxfirst) (y & Hy & Hyv & Hymax & Hyfirst).
  pose proof (Hxmax k y Hy Hyv). pose proof (Hymax j x Hx Hxv).
  assert (age_ y = age_ x) by lia.
  pose proof (Hxfirst k y Hy Hyv ltac:(auto)).
  pose proof (Hyfirst j x Hx Hxv ltac:(auto)). lia.
Qed.

End SetOps.

(** ** [Insert] on one set *)

Lemma Insert_set_full s a : isFull_set s = true -> Insert_set s a = (false, s).
Proof.
  induction s as [|x s IH]; simpl; auto.
  destruct (valid_ x); simpl; [|discriminate].
  intros H. rewrite IH by auto. reflexivity.
Qed.

Lemma Insert_set_free s a :
  isFull_set s = false ->
  exists k x, s !! k = Some x /\ valid_ x = false /\
    (forall k' y, (k' < k)%nat -> s !! k' = Some y -> valid_ y = true) /\
    Insert_set s a = (true, <[k := a]> s).
Proof.
  induction s as [|x s IH]; simpl; [discriminate|].
  destruct (valid_ x) eqn:Hv; simpl.
  - intros H. destruct (IH H) as (k & y & Hk & Hyv & Hbefore & Hins).
    exists (S k), y. rewrite Hins. repeat split; auto.
    intros [|k'] z Hlt Hz; simpl in Hz.
    + congruence.
    + apply (Hbefore k' z); auto with lia.
  - intros _. exists 0%nat, x. repeat split; auto. intros; lia.
Qed.

Lemma miss_branch_unfold c t r s :
  cache_ c !! Z.to_nat t = Some s ->
  miss_branch c t r =
  do s' <- miss_set s r;
  Some (false, setValid r,
        set_store c (<[Z.to_nat t := s']> (cache_ c)) (hitMiss_ c ++ [false])).
Proof.
  intros Hs. unfold miss_branch, miss_set, isFull, getOldest, Insert. simpl.
  rewrite Hs. destruct (isFull_set s) eqn:Hfull.
  - destruct (getOldest_set s) as [j|] eqn:Hj; auto.
    apply getOldest_set_Some in Hj as [Hold _]. apply is_oldest_lt in Hold.
    apply Nat.ltb_lt in Hold. rewrite Hold. reflexivity.
  - destruct (Insert_set s (setValid r)) as [b s']. reflexivity.
Qed.

Lemma Read_unfold c r s :
  cache_ c !! Z.to_nat (index_ r) = Some s ->
  Read c r =
  do res <- Read_set s r;
  Some (fst res, (if fst res then r else setValid r),
        after_access c (index_ r) (snd res) (fst res)).
Proof.
  intros Hs. unfold Read, addAge, Read_set. rewrite Hs. simpl.
  assert (Hlt : (Z.to_nat (index_ r) < length (cache_ c))%nat)
    by (eapply lookup_lt_Some; eauto).
  rewrite list_lookup_insert_eq by auto.
  destruct (findTag (addAge_set s) 0 (tag_ r)) eqn:Hf.
  - reflexivity.
  - erewrite miss_branch_unfold
      by (simpl; rewrite list_lookup_insert_eq by auto; reflexivity).
    destruct (miss_set (addAge_set s) r) as [s'|]; auto. simpl.
    unfold after_access, set_store. simpl.
    rewrite list_insert_insert_eq. reflexivity.
Qed.

Lemma Write_unfold c w s :
  cache_ c !! Z.to_nat (index_ w) = Some s ->
  Write c w =
  do res <- Write_set s w;
  Some (fst res, (if fst res then w else setValid w),
        after_access c (index_ w) (snd res) (fst res)).
Proof.
  intros Hs. unfold Write, addAge, Write_set. rewrite Hs. simpl.
  assert (Hlt : (Z.to_nat (index_ w) < length (cache_ c))%nat)
    by (eapply lookup_lt_Some; eauto).
  rewrite list_lookup_insert_eq by auto.
  destruct (findTag (addAge_set s) 0 (tag_ w)) eqn:Hf.
  - destruct (addAge_set s !! n); auto. simpl.
    unfold after_access, set_store. simpl.
    rewrite list_insert_insert_eq. reflexivity.
  - erewrite miss_branch_unfold
      by (simpl; rewrite list_lookup_insert_eq by auto; reflexivity).
    destruct (miss_set (addAge_set s) w) as [s'|]; auto. simpl.
    unfold after_access, set_store. simpl.
    rewrite list_insert_insert_eq. reflexivity.
Qed.

Lemma Read_out_of_range c r :
  cache_ c !! Z.to_nat (index_ r) = None -> Read c r = None.
Proof. intros H. unfold Read, addAge. rewrite H. reflexivity. Qed.

Lemma Write_out_of_range c w :
  cache_ c !! Z.to_nat (index_ w) = None -> Write c w = None.
Proof. intros H. unfold Write, addAge. rewrite H. reflexivity. Qed.

(** ** Shape of the result on one set *)

Lemma findTag_present s tag k z :
  s !! k = Some z -> valid_ z = true -> tag_ z = tag ->
  exists j, findTag s 0%nat tag = Some j.
Proof.
  intros Hk Hv Ht. destruct (findTag s 0%nat tag) as [j|] eqn:E; eauto.
  exfalso. rewrite findTag_None in E. apply (E k z); auto.
Qed.

Lemma findTag_lookup s tag j :
  findTag s 0%nat tag = Some j ->
  exists x, s !! j = Some x /\ valid_ x = true /\ tag_ x = tag.
Proof.
  intros H. apply findTag_Some in H as (k & x & -> & Hk & Hv & Ht & _).
  exists x. simpl. auto.
Qed.

Lemma miss_set_shape s r s' :
  miss_set s r = Some s' ->
  exists j, (j < length s)%nat /\ s' = <[j := setValid r]> s /\
    (isFull_set s = true -> getOldest_set s = Some j) /\
    (isFull_set s = false ->
       exists x, s !! j = Some x /\ valid_ x = false /\
         forall k y, (k < j)%nat -> s !! k = Some y -> valid_ y = true).
Proof.
  unfold miss_set. destruct (isFull_set s) eqn:Hfull.
  - destruct (getOldest_set s) as [j|] eqn:Hj; [|discriminate].
    intros [= <-]. exists j. repeat split; auto; try discriminate.
    apply getOldest_set_Some in Hj as [Hold _]. apply is_oldest_lt; auto.
  - destruct (Insert_set_free s (setValid r) Hfull)
      as (k & x & Hk & Hxv & Hbefore & Hins).
    rewrite Hins. simpl. intros [= <-]. exists k.
    repeat split; auto; try discriminate.
    + eapply lookup_lt_Some; eauto.
    + intros _. exists x. auto.
Qed.

Lemma after_access_lookup c t s0 s' hit :
  cache_ c !! Z.to_nat t = Some s0 ->
  cache_ (after_access c t s' hit) !! Z.to_nat t = Some s'.
Proof.
  intros H. unfold after_access. simpl.
  apply list_lookup_insert_eq. eapply lookup_lt_Some; eauto.
Qed.

Lemma after_access_lookup_ne c t s' hit u :
  u <> Z.to_nat t ->
  cache_ (after_access c t s' hit) !! u = cache_ c !! u.
Proof.
  intros H. unfold after_access. simpl.
  apply list_lookup_insert_ne. auto.
Qed.

(** An access routine is [Read] or [Write]; its action on the target set
    is [Read_set] or [Write_set]. *)
Lemma access_unfold (access : Cache -> Access -> option (bool * Access * Cache))
    c r s :
  access = Read \/ access = Write ->
  cache_ c !! Z.to_nat (index_ r) = Some s ->
  exists access_set, (access_set = Read_set \/ access_set = Write_set) /\
    access c r =
    do res <- access_set s r;
    Some (fst res, (if fst res then r else setValid r),
          after_access c (index_ r) (snd res) (fst res)).
Proof.
  intros [->| ->] Hs.
  - exists Read_set. split; auto. apply Read_unfold; auto.
  - exists Write_set. split; auto. apply Write_unfold; auto.
Qed.

(** On a hit the set is the aged set, up to the dirty flag of one slot. *)
Lemma access_set_hit access_set s r j :
  access_set = Read_set \/ access_set = Write_set ->
  findTag s 0%nat (tag_ r) = Some j ->
  exists s', access_set s r = Some (true, s') /\
    forall i x, s !! i = Some x ->
      exists y, s' !! i = Some y /\ valid_ y = valid_ x /\
        tag_ y = tag_ x /\ age_ y = age_ (aged x).
Proof.
  intros Hacc Hf. pose proof Hf as Hf'. rewrite <- (findTag_addAge s) in Hf'.
  destruct Hacc as [->| ->].
  - exists (addAge_set s). unfold Read_set. rewrite Hf'. split; auto.
    intros i x Hi. exists (aged x). rewrite addAge_set_lookup, Hi.
    rewrite aged_valid, aged_tag. auto.
  - destruct (findTag_lookup _ _ _ Hf) as (z & Hz & Hzv & Hzt).
    exists (<[j := setDirty (aged z)]> (addAge_set s)).
    unfold Write_set. rewrite Hf', addAge_set_lookup, Hz. simpl.
    split; auto. intros i x Hi. destruct (decide (i = j)) as [->|Hne].
    + assert (x = z) as -> by congruence.
      exists (setDirty (aged z)). rewrite list_lookup_insert_eq
        by (rewrite addAge_set_length; eapply lookup_lt_Some; eauto).
      simpl. rewrite aged_valid, aged_tag. auto.
    + exists (aged x). rewrite list_lookup_insert_ne by auto.
      rewrite addAge_set_lookup, Hi, aged_valid, aged_tag. auto.
Qed.

(** On a miss both routines leave [miss_set] of the aged set. *)
Lemma access_set_miss access_set s r :
  access_set = Read_set \/ access_set = Write_set ->
  findTag s 0%nat (tag_ r) = None ->
  access_set s r = do s' <- miss_set (addAge_set s) r; Some (false, s').
Proof.
  intros Hacc Hf. rewrite <- (findTag_addAge s) in Hf.
  destruct Hacc as [->| ->]; unfold Read_set, Write_set; rewrite Hf; auto.
Qed.

(** ** Ageing *)

(** C1.  Every access, [Read] or [Write], ages the target set exactly once.
    On a hit (some valid slot of the target set carries the tag) the
    routine returns [true] and every slot keeps its validity and tag, each
    valid slot, the matched one included, has its age incremented by one
    (modulo the width of [size_t], hence exactly by one below [SIZE_MAX]:
    it is not reset to zero) and each invalid slot keeps its age.  On a miss
    one slot receives the new line and every other slot is the aged
    original. *)
Theorem ageing_once_per_access
    (access : Cache -> Access -> option (bool * Access * Cache)) c r s :
  access = Read \/ access = Write ->
  cache_ c !! Z.to_nat (index_ r) = Some s ->
  (forall k z, s !! k = Some z -> valid_ z = true -> tag_ z = tag_ r ->
     exists c' s', access c r = Some (true, r, c') /\
       cache_ c' !! Z.to_nat (index_ r) = Some s' /\
       forall i x, s !! i = Some x ->
         exists y, s' !! i = Some y /\
           valid_ y = valid_ x /\ tag_ y = tag_ x /\
           (valid_ x = true ->
              age_ y = wrap (age_ x + 1) /\
              (0 <= age_ x < SIZE_MAX -> age_ y = age_ x + 1)) /\
           (valid_ x = false -> age_ y = age_ x))
  /\
  (forall r' c', access c r = Some (false, r', c') ->
     exists s' j, cache_ c' !! Z.to_nat (index_ r) = Some s' /\
       s' !! j = Some (setValid r) /\
       forall i x, i <> j -> s !! i = Some x ->
         s' !! i = Some (if valid_ x then Access_addAge x else x)).
Proof.
  intros Hacc Hs.
  destruct (access_unfold access c r s Hacc Hs) as (aset & Haset & Hun).
  split.
  - intros k z Hk Hzv Hzt.
    destruct (findTag_present s (tag_ r) k z Hk Hzv Hzt) as [j Hj].
    destruct (access_set_hit aset s r j Haset Hj) as (s' & Hres & Hslots).
    rewrite Hres in Hun. simpl in Hun.
    exists (after_access c (index_ r) s' true), s'.
    split; [exact Hun|]. split; [eapply after_access_lookup; eauto|].
    intros i x Hi. destruct (Hslots i x Hi) as (y & Hy & Hyv & Hyt & Hya).
    exists y. repeat split; auto.
    + rewrite Hya. apply aged_age_valid; auto.
    + intros Hb. rewrite Hya, aged_age_valid by auto.
      apply wrap_small. lia.
    + intros Hinv. rewrite Hya, aged_age_invalid; auto.
  - intros r' c' Hres. rewrite Hun in Hres.
    destruct (findTag s 0%nat (tag_ r)) as [j|] eqn:Hf.
    + destruct (access_set_hit aset s r j Haset Hf) as (s' & Hhit & _).
      rewrite Hhit in Hres. discriminate.
    + rewrite (access_set_miss aset s r Haset Hf) in Hres.
      destruct (miss_set (addAge_set s) r) as [s'|] eqn:Hm; [|discriminate].
      simpl in Hres. injection Hres as <- <-.
      destruct (miss_set_shape _ _ _ Hm) as (j & Hlt & -> & _).
      exists (<[j := setValid r]> (addAge_set s)), j.
      split; [eapply after_access_lookup; eauto|].
      split; [apply list_lookup_insert_eq; auto|].
      intros i x Hne Hi. rewrite list_lookup_insert_ne by auto.
      rewrite addAge_set_lookup, Hi. reflexivity.
Qed.

Lemma ageing_once_per_access_witness :
  exists c', Write (ex_cache [ex_line 7 3 true false; ex_line 9 5 true false])
                   (ex_access 9)
             = Some (true, ex_access 9, c') /\
    cache_ c' !! 0%nat
    = Some [ex_line 7 4 true false; ex_line 9 6 true true].
Proof.
  destruct (ageing_once_per_access Write
              (ex_cache [ex_line 7 3 true false; ex_line 9 5 true false])
              (ex_access 9)
              [ex_line 7 3 true false; ex_line 9 5 true false]
              (or_intror eq_refl) eq_refl) as [Hhit _].
  destruct (Hhit 1%nat (ex_line 9 5 true false) eq_refl eq_refl eq_refl)
    as (c' & s' & Hw & _).
  exists c'. split; [exact Hw|].
  vm_compute in Hw. injection Hw as <-. reflexivity.
Defined.

(** ** Eviction *)

Lemma aged_no_wrap x :
  valid_ x = true -> 0 <= age_ x < SIZE_MAX -> age_ (aged x) = age_ x + 1.
Proof.
  intros Hv Hb. rewrite aged_age_valid by auto. apply wrap_small. lia.
Qed.

(** After ageing, a full non-empty set whose ages were below [SIZE_MAX]
    has only valid slots of age at least 1. *)
Lemma full_aged_positive s :
  isFull_set s = true ->
  (forall k z, s !! k = Some z -> valid_ z = true -> 0 <= age_ z < SIZE_MAX) ->
  forall k y, addAge_set s !! k = Some y -> valid_ y = true /\ 1 <= age_ y.
Proof.
  intros Hfull Hages k y Hy. rewrite addAge_set_lookup in Hy.
  destruct (s !! k) as [z|] eqn:Hz; [|discriminate]. injection Hy as <-.
  rewrite isFull_set_Forall, Forall_lookup in Hfull.
  pose proof (Hfull k z Hz) as Hv. simpl in Hv.
  rewrite aged_valid, aged_no_wrap by eauto.
  specialize (Hages k z Hz Hv). split; auto. lia.
Qed.

Lemma full_aged_getOldest s :
  s <> [] -> isFull_set s = true ->
  (forall k z, s !! k = Some z -> valid_ z = true -> 0 <= age_ z < SIZE_MAX) ->
  exists j, getOldest_set (addAge_set s) = Some j /\
            is_oldest (addAge_set s) j /\ is_oldest s j.
Proof.
  intros Hne Hfull Hages.
  pose proof (full_aged_positive s Hfull Hages) as Hpos.
  assert (Hex : Exists (older_than 0) (addAge_set s)).
  { destruct s as [|x s']; [congruence|]. constructor 1.
    destruct (Hpos 0%nat (aged x) eq_refl) as [Hv Ha].
    split; auto. unfold aged in *. lia. }
  destruct (getOldest_loop_pick _ 0%nat 0 None Hex)
    as (j & Hj & Hold & _).
  exists j. split; [exact Hj|]. split; [exact Hold|].
  destruct Hold as (y & Hy & Hyv & Hmax & Hfirst).
  rewrite addAge_set_lookup in Hy.
  destruct (s !! j) as [x|] eqn:Hx; [|discriminate]. injection Hy as <-.
  rewrite aged_valid in Hyv. exists x. split; auto. split; auto.
  assert (Hage : forall k z, s !! k = Some z -> valid_ z = true ->
            addAge_set s !! k = Some (aged z) /\ valid_ (aged z) = true /\
            age_ (aged z) = age_ z + 1).
  { intros k z Hz Hzv. rewrite addAge_set_lookup, Hz, aged_valid.
    rewrite aged_no_wrap by eauto. auto. }
  destruct (Hage j x Hx Hyv) as (_ & _ & Hxa). split.
  - intros k z Hz Hzv. destruct (Hage k z Hz Hzv) as (Hk & Hv & Ha).
    pose proof (Hmax k (aged z) Hk Hv). lia.
  - intros k z Hz Hzv Heq. destruct (Hage k z Hz Hzv) as (Hk & Hv & Ha).
    apply (Hfirst k (aged z) Hk Hv). lia.
Qed.

(** C2.  A miss ([Read] or [Write]) on a full set returns [false] and
    overwrites slot [j], where [j] is a valid slot of maximal age among the
    valid slots of the set and the lowest such position (before and after
    the ageing of this access alike); the slot then holds the new line,
    whose age is that of the incoming access: 0 for every access of the
    trace.  Ages are below [SIZE_MAX], so the ageing does not wrap. *)
Theorem eviction_replaces_oldest
    (access : Cache -> Access -> option (bool * Access * Cache)) c r s :
  access = Read \/ access = Write ->
  cache_ c !! Z.to_nat (index_ r) = Some s ->
  s <> [] ->
  isFull_set s = true ->
  (forall k z, s !! k = Some z -> ~ (valid_ z = true /\ tag_ z = tag_ r)) ->
  (forall k z, s !! k = Some z -> valid_ z = true -> 0 <= age_ z < SIZE_MAX) ->
  age_ r = 0 ->
  exists j x c' s',
    access c r = Some (false, setValid r, c') /\
    s !! j = Some x /\ valid_ x = true /\
    (forall k y, s !! k = Some y -> valid_ y = true -> age_ y <= age_ x) /\
    (forall k y, s !! k = Some y -> valid_ y = true -> age_ y = age_ x ->
                 (j <= k)%nat) /\
    is_oldest (addAge_set s) j /\
    cache_ c' !! Z.to_nat (index_ r) = Some s' /\
    s' = <[j := setValid r]> (addAge_set s) /\
    exists y, s' !! j = Some y /\ age_ y = 0 /\ valid_ y = true /\
              tag_ y = tag_ r.
Proof.
  intros Hacc Hs Hne Hfull Hmiss Hages Hr0.
  destruct (access_unfold access c r s Hacc Hs) as (aset & Haset & Hun).
  apply findTag_None with (i := 0%nat) in Hmiss.
  rewrite (access_set_miss aset s r Haset Hmiss) in Hun.
  destruct (full_aged_getOldest s Hne Hfull Hages) as (j & Hj & Hold' & Hold).
  unfold miss_set in Hun. rewrite isFull_set_addAge, Hfull, Hj in Hun.
  simpl in Hun. pose proof Hold as (x & Hx & Hxv & Hmax & Hfirst).
  exists j, x, (after_access c (index_ r)
                  (<[j := setValid r]> (addAge_set s)) false),
         (<[j := setValid r]> (addAge_set s)).
  repeat (split; [first [exact Hun | eassumption | reflexivity |
                         eapply after_access_lookup; eauto]|]).
  exists (setValid r). split.
  - apply list_lookup_insert_eq. rewrite addAge_set_length.
    eapply lookup_lt_Some; eauto.
  - simpl. auto.
Qed.

Lemma eviction_replaces_oldest_witness :
  exists c',
    Read (ex_cache [ex_line 7 5 true true; ex_line 9 5 true false])
         (ex_access 4) = Some (false, ex_access 4, c') /\
    cache_ c' !! 0%nat = Some [ex_access 4; ex_line 9 6 true false].
Proof.
  destruct (eviction_replaces_oldest Read
              (ex_cache [ex_line 7 5 true true; ex_line 9 5 true false])
              (ex_access 4)
              [ex_line 7 5 true true; ex_line 9 5 true false]
              (or_introl eq_refl) eq_refl)
    as (j & x & c' & s' & Hres & _).
  - discriminate.
  - reflexivity.
  - intros [|[|k]] z Hz [_ Ht]; simpl in Hz; try discriminate;
      injection Hz as <-; discriminate.
  - intros [|[|k]] z Hz _; simpl in Hz; try discriminate;
      injection Hz as <-; simpl; unfold SIZE_MAX, size_t_bits; lia.
  - reflexivity.
  - exists c'. split; [exact Hres|].
    vm_compute in Hres. injection Hres as <-. reflexivity.
Defined.

(** ** The uninitialised result of [getOldest] *)

Lemma getOldest_set_defined s :
  (exists j, getOldest_set s = Some j) <->
  (exists k x, s !! k = Some x /\ valid_ x = true /\ 0 < age_ x).
Proof.
  split.
  - intros [j Hj]. apply getOldest_set_Some in Hj as [(x & Hx & Hv & _) Hpos].
    destruct Hpos as (x' & Hx' & Hlt). exists j, x.
    assert (x' = x) as -> by congruence. auto.
  - intros (k & x & Hk & Hv & Hlt).
    destruct (getOldest_set s) as [j|] eqn:E; eauto.
    rewrite getOldest_set_None, Forall_lookup in E.
    exfalso. apply (E k x Hk). split; auto.
Qed.

Lemma access_total
    (access : Cache -> Access -> option (bool * Access * Cache)) c r s :
  access = Read \/ access = Write ->
  cache_ c !! Z.to_nat (index_ r) = Some s ->
  s <> [] ->
  (forall k z, s !! k = Some z -> valid_ z = true -> 0 <= age_ z < SIZE_MAX) ->
  exists (hit : bool) s',
    access c r = Some (hit, (if hit then r else setValid r),
                       after_access c (index_ r) s' hit).
Proof.
  intros Hacc Hs Hne Hages.
  destruct (access_unfold access c r s Hacc Hs) as (aset & Haset & Hun).
  destruct (findTag s 0%nat (tag_ r)) as [j|] eqn:Hf.
  - destruct (access_set_hit aset s r j Haset Hf) as (s' & Hhit & _).
    rewrite Hhit in Hun. exists true, s'. exact Hun.
  - rewrite (access_set_miss aset s r Haset Hf) in Hun.
    unfold miss_set in Hun. rewrite isFull_set_addAge in Hun.
    destruct (isFull_set s) eqn:Hfull.
    + destruct (full_aged_getOldest s Hne Hfull Hages) as (j & Hj & _).
      rewrite Hj in Hun. simpl in Hun. eexists false, _. exact Hun.
    + simpl in Hun. eexists false, _. exact Hun.
Qed.


(** ** [Write] against [Read] *)

Lemma line_core_setDirty x : line_core (setDirty x) = line_core x.
Proof. reflexivity. Qed.

(** C5.  On the same cache object and access, [Write] fails exactly when
    [Read] fails, and otherwise returns the same outcome, the same access
    and the same log.  On a miss the two resulting objects are equal, and
    the slot that received the line holds the access marked valid, with
    the dirty flag of the access untouched ([false] for every access of
    the trace).  On a hit the object after [Write] is the object after
    [Read] with the dirty flag set in the first valid slot carrying the
    tag.  In every case all slots agree on validity, tag and age. *)
Theorem Write_as_Read_up_to_dirty c a :
  (Read c a = None <-> Write c a = None) /\
  forall hit a' c', Read c a = Some (hit, a', c') ->
    exists c'',
      Write c a = Some (hit, a', c'') /\
      hitMiss_ c'' = hitMiss_ c' /\
      hits_ c'' = hits_ c' /\ accesses_ c'' = accesses_ c' /\
      store_core (cache_ c'') = store_core (cache_ c') /\
      (hit = false ->
         c'' = c' /\
         exists s' j y,
           cache_ c' !! Z.to_nat (index_ a) = Some s' /\
           s' !! j = Some y /\ y = setValid a /\
           valid_ y = true /\ dirty_ y = dirty_ a) /\
      (hit = true ->
         exists s j x,
           cache_ c' !! Z.to_nat (index_ a) = Some s /\
           s !! j = Some x /\ valid_ x = true /\ tag_ x = tag_ a /\
           (forall k y, (k < j)%nat -> s !! k = Some y ->
                        ~ (valid_ y = true /\ tag_ y = tag_ a)) /\
           cache_ c'' =
             <[Z.to_nat (index_ a) := <[j := setDirty x]> s]> (cache_ c')).
Proof.
  destruct (cache_ c !! Z.to_nat (index_ a)) as [s|] eqn:Hs.
  2: { rewrite Read_out_of_range, Write_out_of_range by auto.
       split; [tauto|]. discriminate. }
  rewrite (Read_unfold c a s Hs), (Write_unfold c a s Hs).
  unfold Read_set, Write_set.
  destruct (findTag (addAge_set s) 0%nat (tag_ a)) as [j|] eqn:Hf.
  - destruct (findTag_Some _ _ _ _ Hf) as (k & x & -> & Hx & Hxv & Hxt & Hfirst).
    simpl in *. rewrite Hx. simpl. split; [split; discriminate|].
    intros hit a' c' [= <- <- <-].
    assert (Hlt : (Z.to_nat (index_ a) < length (cache_ c))%nat)
      by (eapply lookup_lt_Some; eauto).
    eexists. split; [reflexivity|]. simpl.
    repeat (split; [reflexivity|]). split; [|split; [discriminate|]].
    + unfold store_core. rewrite !list_fmap_insert. f_equal.
      rewrite (list_insert_id (line_core <$> addAge_set s)); auto.
      rewrite list_lookup_fmap, Hx. reflexivity.
    + intros _. exists (addAge_set s), k, x.
      rewrite list_lookup_insert_eq by auto.
      rewrite list_insert_insert_eq. auto 10.
  - destruct (miss_set (addAge_set s) a) as [s'|] eqn:Hm; simpl.
    2: { split; [tauto|]. discriminate. }
    split; [split; discriminate|].
    intros hit a' c' [= <- <- <-]. eexists. split; [reflexivity|].
    repeat (split; [reflexivity|]). split; [|discriminate].
    intros _. split; [reflexivity|].
    destruct (miss_set_shape _ _ _ Hm) as (j & Hlt & -> & _).
    exists (<[j := setValid a]> (addAge_set s)), j, (setValid a).
    split; [eapply after_access_lookup; eauto|].
    split; [apply list_lookup_insert_eq; auto|]. auto.
Qed.

Lemma Write_as_Read_up_to_dirty_witness :
  exists c'',
    Write (ex_cache [ex_line 7 3 true false; ex_line 9 5 true false])
          (ex_access 9) = Some (true, ex_access 9, c'') /\
    cache_ c'' = [[ex_line 7 4 true false; ex_line 9 6 true true]].
Proof.
  destruct (Write_as_Read_up_to_dirty
              (ex_cache [ex_line 7 3 true false; ex_line 9 5 true false])
              (ex_access 9)) as [_ H].
  destruct (H true (ex_access 9) _ eq_refl) as (c'' & Hw & _).
  exists c''. split; [exact Hw|].
  vm_compute in Hw. injection Hw as <-. reflexivity.
Defined.

(** ** One valid slot per tag *)

Lemma tags_distinct_addAge s : tags_distinct s -> tags_distinct (addAge_set s).
Proof.
  intros H i j x y Hi Hj Hxv Hyv Ht. rewrite addAge_set_lookup in Hi, Hj.
  destruct (s !! i) as [x0|] eqn:Hi0; [|discriminate].
  destruct (s !! j) as [y0|] eqn:Hj0; [|discriminate].
  injection Hi as <-. injection Hj as <-.
  rewrite aged_valid in Hxv, Hyv. rewrite !aged_tag in Ht.
  eapply H; eauto.
Qed.

Lemma tags_distinct_setDirty s j x :
  tags_distinct s -> s !! j = Some x ->
  tags_distinct (<[j := setDirty x]> s).
Proof.
  intros H Hx.
  assert (Hsame : forall i y, <[j := setDirty x]> s !! i = Some y ->
            exists y0, s !! i = Some y0 /\ valid_ y0 = valid_ y /\
                       tag_ y0 = tag_ y).
  { intros i y Hy. destruct (decide (i = j)) as [->|Hne].
    - rewrite list_lookup_insert_eq in Hy by (eapply lookup_lt_Some; eauto).
      injection Hy as <-. exists x. auto.
    - rewrite list_lookup_insert_ne in Hy by auto. eauto. }
  intros i1 i2 y1 y2 H1 H2 Hv1 Hv2 Ht.
  destruct (Hsame _ _ H1) as (z1 & Hz1 & Hzv1 & Hzt1).
  destruct (Hsame _ _ H2) as (z2 & Hz2 & Hzv2 & Hzt2).
  eapply (H i1 i2 z1 z2); eauto; congruence.
Qed.

Lemma tags_distinct_new_line s j r :
  tags_distinct s ->
  (forall k z, s !! k = Some z -> ~ (valid_ z = true /\ tag_ z = tag_ r)) ->
  tags_distinct (<[j := setValid r]> s).
Proof.
  intros H Hfresh i1 i2 y1 y2 H1 H2 Hv1 Hv2 Ht.
  destruct (decide (i1 = i2)) as [|Hne]; auto. exfalso.
  destruct (decide (j < length s)%nat) as [Hlt|Hge].
  2: { rewrite list_insert_ge in H1, H2 by lia.
       apply Hne. eapply H; eauto. }
  destruct (decide (i1 = j)) as [->|Hne1].
  - rewrite list_lookup_insert_eq in H1 by auto. injection H1 as <-.
    rewrite list_lookup_insert_ne in H2 by auto.
    apply (Hfresh i2 y2 H2). simpl in Ht. auto.
  - rewrite list_lookup_insert_ne in H1 by auto.
    destruct (decide (i2 = j)) as [->|Hne2].
    + rewrite list_lookup_insert_eq in H2 by auto. injection H2 as <-.
      apply (Hfresh i1 y1 H1). simpl in Ht. auto.
    + rewrite list_lookup_insert_ne in H2 by auto.
      apply Hne. eapply H; eauto.
Qed.

Lemma access_set_tags_distinct access_set s r hit s' :
  access_set = Read_set \/ access_set = Write_set ->
  tags_distinct s ->
  access_set s r = Some (hit, s') ->
  tags_distinct s'.
Proof.
  intros Hacc Hd Hres.
  pose proof (tags_distinct_addAge s Hd) as Hd'.
  destruct (findTag s 0%nat (tag_ r)) as [j|] eqn:Hf.
  - pose proof Hf as Hf'. rewrite <- (findTag_addAge s) in Hf'.
    destruct Hacc as [->| ->]; unfold Read_set, Write_set in Hres;
      rewrite Hf' in Hres.
    + injection Hres as <- <-. auto.
    + destruct (addAge_set s !! j) as [x|] eqn:Hx; [|discriminate].
      injection Hres as <- <-. apply tags_distinct_setDirty; auto.
  - rewrite (access_set_miss access_set s r Hacc Hf) in Hres.
    destruct (miss_set (addAge_set s) r) as [s1|] eqn:Hm; [|discriminate].
    injection Hres as <- <-.
    destruct (miss_set_shape _ _ _ Hm) as (j & _ & -> & _).
    apply tags_distinct_new_line; auto.
    rewrite <- (findTag_addAge s) in Hf.
    rewrite findTag_None in Hf. exact Hf.
Qed.

Lemma Cache_ctor_store A L C c0 :
  Cache_ctor A L C = Some c0 ->
  cache_ c0 = replicate (Z.to_nat (numSets_ c0))
                        (replicate (Z.to_nat (setSize_ c0)) Access_default) /\
  setSize_ c0 = A /\ hits_ c0 = 0 /\ accesses_ c0 = 0 /\
  trace_ c0 = [] /\ hitMiss_ c0 = [].
Proof.
  unfold Cache_ctor. destruct (calcNumSets C A L); [|discriminate].
  destruct ((C =? 0) || (L =? 0) || (A =? 0)); [discriminate|].
  intros [= <-]. simpl. auto 10.
Qed.

(** C8.  In every cache object reached from a constructed one by calls of
    [Read] and [Write], no set has two valid slots with the same tag. *)
Theorem one_valid_slot_per_tag A L C c0 c :
  Cache_ctor A L C = Some c0 ->
  reachable c0 c ->
  forall t s i j x y,
    cache_ c !! t = Some s ->
    s !! i = Some x -> s !! j = Some y ->
    valid_ x = true -> valid_ y = true -> tag_ x = tag_ y ->
    i = j.
Proof.
  intros Hctor Hreach.
  assert (Hinv : forall t s, cache_ c !! t = Some s -> tags_distinct s).
  { induction Hreach as [|c access r hit r' c' Hreach IH Hacc Hres].
    - destruct (Cache_ctor_store _ _ _ _ Hctor) as (Hstore & _).
      intros t s Hs. rewrite Hstore in Hs.
      apply lookup_replicate in Hs as [-> _].
      intros i j x y Hi _ Hxv _ _.
      apply lookup_replicate in Hi as [-> _]. discriminate.
    - intros t s' Hs'.
      destruct (cache_ c !! Z.to_nat (index_ r)) as [s|] eqn:Hs.
      2: { exfalso. destruct Hacc as [->| ->].
           - rewrite Read_out_of_range in Hres by auto. discriminate.
           - rewrite Write_out_of_range in Hres by auto. discriminate. }
      destruct (access_unfold access c r s Hacc Hs) as (aset & Haset & Hun).
      rewrite Hun in Hres.
      destruct (aset s r) as [[h s1]|] eqn:Hset; [|discriminate].
      simpl in Hres. injection Hres as <- <- <-.
      destruct (decide (t = Z.to_nat (index_ r))) as [->|Hne].
      + erewrite after_access_lookup in Hs' by eauto. injection Hs' as <-.
        eapply access_set_tags_distinct; eauto.
      + rewrite after_access_lookup_ne in Hs' by auto. eauto. }
  intros t s i j x y Hs. apply (Hinv t s Hs).
Qed.

(** ** The constructor *)

Lemma pow2_le_wrap n : 0 <= n <= 32 -> wrap (2 ^ n) = 2 ^ n.
Proof.
  intros H. apply wrap_small. unfold SIZE_MAX, size_t_bits.
  pose proof (Z.pow_le_mono_r 2 n 32 ltac:(lia) ltac:(lia)).
  pose proof (Z.pow_pos_nonneg 2 n ltac:(lia) ltac:(lia)).
  change (2 ^ 32) with 4294967296 in *. change (2 ^ 64) with 18446744073709551616.
  lia.
Qed.

Lemma Cache_ctor_pow2 a l k :
  0 <= a -> 0 <= l -> a + l <= k <= 32 ->
  Cache_ctor (2 ^ a) (2 ^ l) (2 ^ k) =
  Some (mkCache (wrap (2 ^ (k - a - l) * 2 ^ a)) (2 ^ (k - a - l))
                (2 ^ l) (2 ^ a) (2 ^ k) l k (32 - k + a) 0 0
                (replicate (Z.to_nat (2 ^ (k - a - l)))
                           (replicate (Z.to_nat (2 ^ a)) Access_default))
                [] []).
Proof.
  intros Ha Hl Hk. unfold Cache_ctor, calcNumSets, log2_size_t.
  rewrite <- Z.pow_add_r by lia. rewrite pow2_le_wrap by lia.
  pose proof (Z.pow_pos_nonneg 2 (a + l) ltac:(lia) ltac:(lia)).
  pose proof (Z.pow_pos_nonneg 2 a ltac:(lia) ltac:(lia)).
  pose proof (Z.pow_pos_nonneg 2 l ltac:(lia) ltac:(lia)).
  pose proof (Z.pow_pos_nonneg 2 k ltac:(lia) ltac:(lia)).
  destruct (Z.eqb_spec (2 ^ (a + l)) 0); [lia|].
  destruct (Z.eqb_spec (2 ^ k) 0); [lia|].
  destruct (Z.eqb_spec (2 ^ l) 0); [lia|].
  destruct (Z.eqb_spec (2 ^ a) 0); [lia|]. simpl.
  rewrite !Z.log2_pow2 by lia.
  replace (2 ^ k / 2 ^ (a + l)) with (2 ^ (k - a - l))
    by (replace (k - a - l) with (k - (a + l)) by lia;
        apply Z.pow_sub_r; lia).
  replace (wrap (wrap (32 - k) + a)) with (32 - k + a); [reflexivity|].
  rewrite (wrap_small (32 - k)) by (unfold SIZE_MAX, size_t_bits; lia).
  rewrite wrap_small by (unfold SIZE_MAX, size_t_bits; lia). reflexivity.
Qed.

(** C3, as the constructor has it.  For a valid configuration the
    constructor succeeds with [numSets = C / (A * L)],
    [offsetBits = log2 L], [indexBits = log2 C] (that is
    [log2 numSets + log2 A + log2 L]: the whole cache size, not the number
    of sets) and [tagBits = 32 - log2 C + log2 A], which is
    [32 - offsetBits - log2 numSets].  So [offsetBits + log2 numSets +
    tagBits = 32], while the three stored widths add up to
    [32 + log2 A + log2 L]. *)
Theorem ctor_bit_widths A L C :
  valid_config A L C ->
  exists c, Cache_ctor A L C = Some c /\
    numSets_ c = C / (A * L) /\ 0 < numSets_ c /\
    getOffsetBits c = Z.log2 L /\
    getIndexBits c = Z.log2 C /\
    getIndexBits c = Z.log2 (numSets_ c) + Z.log2 A + Z.log2 L /\
    getTagBits c = 32 - getOffsetBits c - Z.log2 (numSets_ c) /\
    getOffsetBits c + Z.log2 (numSets_ c) + getTagBits c = 32 /\
    getOffsetBits c + getIndexBits c + getTagBits c
      = 32 + Z.log2 A + Z.log2 L.
Proof.
  intros (a & l & k & Ha & Hl & Hk & -> & -> & ->).
  eexists. split; [apply Cache_ctor_pow2; lia|].
  unfold getOffsetBits, getIndexBits, getTagBits. simpl.
  rewrite !Z.log2_pow2 by lia.
  rewrite <- Z.pow_add_r by lia.
  replace (2 ^ k / 2 ^ (a + l)) with (2 ^ (k - a - l))
    by (replace (k - a - l) with (k - (a + l)) by lia;
        apply Z.pow_sub_r; lia).
  pose proof (Z.pow_pos_nonneg 2 (k - a - l) ltac:(lia) ltac:(lia)).
  repeat split; auto; lia.
Qed.

Lemma ctor_bit_widths_witness :
  exists c, Cache_ctor 2 4 64 = Some c /\
    getOffsetBits c = 2 /\ getIndexBits c = 6 /\ getTagBits c = 27 /\
    numSets_ c = 8.
Proof.
  destruct (ctor_bit_widths 2 4 64) as (c & Hc & _).
  - exists 1, 2, 6. repeat split; lia.
  - exists c. split; [exact Hc|].
    vm_compute in Hc. injection Hc as <-. repeat split.
Defined.

(** The widths of the configuration (1, 4, 16) against C3: the index width
    is 4 and not [log2 numSets = 2], the tag width is not
    [32 - offsetBits - indexBits], and the three widths add up to 34. *)
Lemma ctor_bit_widths_counterexample :
  valid_config 1 4 16 /\
  exists c, Cache_ctor 1 4 16 = Some c /\
    getIndexBits c <> Z.log2 (numSets_ c) /\
    getTagBits c <> 32 - getOffsetBits c - getIndexBits c /\
    getOffsetBits c + getIndexBits c + getTagBits c <> 32.
Proof.
  split.
  - exists 0, 2, 4. repeat split; lia.
  - eexists. split; [vm_compute; reflexivity|].
    vm_compute. repeat split; discriminate.
Qed.

(** ** The worked example *)

(** C6, as the program runs it.  The configuration (1, 4, 16) gives 4 sets,
    2 offset bits, an index width of 4 and 28 tag bits; the three reads
    are Miss, Miss, Miss: address 00000010 decodes to index 0 like address
    00000000, with tag 1, so the second read evicts the line of the first
    and the third read misses. *)
Theorem example_trace_outcomes :
  exists c, simulate 1 4 16 ex_trace = Some c /\
    numSets_ c = 4 /\ getOffsetBits c = 2 /\ getIndexBits c = 4 /\
    getTagBits c = 28 /\
    hitMiss_ c = [false; false; false] /\
    hits_ c = 0 /\ accesses_ c = 3 /\
    ((fun a => (tag_ a, index_ a, offset_ a)) <$> trace_ c)
      = [(0, 0, 0); (1, 0, 0); (0, 0, 0)].
Proof.
  eexists. split; [vm_compute; reflexivity|]. vm_compute. repeat split.
Qed.

(** The same run against C6: the index width is not 2, the second read
    goes to the set of the first, and the third read is not a hit. *)
Lemma example_trace_counterexample :
  exists c, simulate 1 4 16 ex_trace = Some c /\
    getIndexBits c <> 2 /\
    hitMiss_ c <> [false; false; true] /\
    (index_ <$> trace_ c) !! 1%nat = (index_ <$> trace_ c) !! 0%nat.
Proof.
  eexists. split; [vm_compute; reflexivity|].
  vm_compute. repeat split; discriminate.
Qed.

(** ** The trace loop *)

Lemma tallied_app l1 l2 : tallied (l1 ++ l2) = (tallied l1 + tallied l2)%nat.
Proof. induction l1 as [|o l1 IH]; simpl; auto. rewrite IH. lia. Qed.

Lemma tallied_le ops : (tallied ops <= length ops)%nat.
Proof.
  induction ops as [|o ops IH]; simpl; auto.
  destruct (is_tallied o); lia.
Qed.

Lemma tallied_all ops :
  Forall (fun o => is_tallied o = true) ops -> tallied ops = length ops.
Proof.
  induction 1 as [|o ops Ho _ IH]; simpl; auto. rewrite Ho, IH. reflexivity.
Qed.

Lemma count_hits_app l1 l2 :
  count_hits (l1 ++ l2) = count_hits l1 + count_hits l2.
Proof. induction l1 as [|h l1 IH]; simpl; auto. rewrite IH. lia. Qed.

Lemma count_hits_range hm : 0 <= count_hits hm <= Z.of_nat (length hm).
Proof.
  induction hm as [|h hm IH]; simpl length; simpl count_hits; [lia|].
  destruct h; lia.
Qed.

(** What an access leaves in the target set, read backwards: every slot
    of the result is the aged original, up to the dirty flag, or the new
    line. *)
Lemma access_set_backward access_set s r hit s' :
  access_set = Read_set \/ access_set = Write_set ->
  access_set s r = Some (hit, s') ->
  length s' = length s /\
  forall i y, s' !! i = Some y ->
    exists x, s !! i = Some x /\
      ((valid_ y = valid_ x /\ age_ y = age_ (aged x)) \/ y = setValid r).
Proof.
  intros Hacc Hres.
  assert (Hins : forall j z i y,
            <[j := z]> (addAge_set s) !! i = Some y ->
            exists x, s !! i = Some x /\ (y = aged x \/ y = z)).
  { intros j z i y Hy.
    assert (Hi : (i < length s)%nat).
    { apply lookup_lt_Some in Hy.
      rewrite length_insert, addAge_set_length in Hy. auto. }
    destruct (lookup_lt_is_Some_2 s i Hi) as [x Hx]. exists x. split; auto.
    destruct (decide (i = j)) as [->|Hne].
    - rewrite list_lookup_insert_eq in Hy
        by (rewrite addAge_set_length; auto).
      right. congruence.
    - rewrite list_lookup_insert_ne in Hy by auto.
      rewrite addAge_set_lookup, Hx in Hy. left. simpl in Hy. congruence. }
  destruct (findTag s 0%nat (tag_ r)) as [j|] eqn:Hf.
  - pose proof Hf as Hf'. rewrite <- (findTag_addAge s) in Hf'.
    destruct Hacc as [->| ->]; unfold Read_set, Write_set in Hres;
      rewrite Hf' in Hres.
    + injection Hres as <- <-. split; [apply addAge_set_length|].
      intros i y Hy. rewrite addAge_set_lookup in Hy.
      destruct (s !! i) as [x|]; [|discriminate]. injection Hy as <-.
      exists x. rewrite aged_valid. auto.
    + destruct (addAge_set s !! j) as [z|] eqn:Hz; [|discriminate].
      injection Hres as <- <-.
      split; [rewrite length_insert; apply addAge_set_length|].
      intros i y Hy. destruct (Hins _ _ _ _ Hy) as (x & Hx & [->| ->]).
      * exists x. rewrite aged_valid. auto.
      * destruct (decide (i = j)) as [->|Hne].
        -- rewrite addAge_set_lookup, Hx in Hz. injection Hz as <-.
           exists x. split; auto. left. simpl. rewrite aged_valid. auto.
        -- rewrite list_lookup_insert_ne in Hy by auto.
           rewrite addAge_set_lookup, Hx in Hy. injection Hy as Hy.
           exists x. split; auto. left. rewrite <- Hy, aged_valid. auto.
  - rewrite (access_set_miss access_set s r Hacc Hf) in Hres.
    destruct (miss_set (addAge_set s) r) as [s1|] eqn:Hm; [|discriminate].
    injection Hres as <- <-.
    destruct (miss_set_shape _ _ _ Hm) as (j & _ & -> & _).
    split; [rewrite length_insert; apply addAge_set_length|].
    intros i y Hy. destruct (Hins _ _ _ _ Hy) as (x & Hx & [->| ->]).
    + exists x. rewrite aged_valid. auto.
    + exists x. auto.
Qed.

Lemma access_set_total access_set s r :
  access_set = Read_set \/ access_set = Write_set ->
  s <> [] ->
  (forall k z, s !! k = Some z -> valid_ z = true -> 0 <= age_ z < SIZE_MAX) ->
  exists hit s', access_set s r = Some (hit, s').
Proof.
  intros Hacc Hne Hages.
  destruct (findTag s 0%nat (tag_ r)) as [j|] eqn:Hf.
  - destruct (access_set_hit access_set s r j Hacc Hf) as (s' & Hhit & _).
    eauto.
  - rewrite (access_set_miss access_set s r Hacc Hf).
    unfold miss_set. rewrite isFull_set_addAge.
    destruct (isFull_set s) eqn:Hfull.
    + destruct (full_aged_getOldest s Hne Hfull Hages) as (j & Hj & _).
      rewrite Hj. simpl. eauto.
    + simpl. eauto.
Qed.

(** One call of [Read] or [Write] on a set whose valid slots have ages in
    [0, b], for an access of age 0: the call returns, and the valid slots
    of the resulting set have ages in [0, b + 1]. *)
Lemma access_step
    (access : Cache -> Access -> option (bool * Access * Cache)) c r s b :
  access = Read \/ access = Write ->
  cache_ c !! Z.to_nat (index_ r) = Some s ->
  s <> [] ->
  (forall k z, s !! k = Some z -> valid_ z = true -> 0 <= age_ z <= b) ->
  0 <= b < SIZE_MAX ->
  age_ r = 0 ->
  exists (hit : bool) s',
    access c r = Some (hit, (if hit then r else setValid r),
                       after_access c (index_ r) s' hit) /\
    s' <> [] /\
    forall k z, s' !! k = Some z -> valid_ z = true -> 0 <= age_ z <= b + 1.
Proof.
  intros Hacc Hs Hne Hages Hb Hr0.
  destruct (access_unfold access c r s Hacc Hs) as (aset & Haset & Hun).
  assert (Hages' : forall k z, s !! k = Some z -> valid_ z = true ->
                               0 <= age_ z < SIZE_MAX).
  { intros k z Hz Hv. specialize (Hages k z Hz Hv). lia. }
  destruct (access_set_total aset s r Haset Hne Hages') as (hit & s' & Hres).
  rewrite Hres in Hun. simpl in Hun. exists hit, s'. split; [exact Hun|].
  destruct (access_set_backward aset s r hit s' Haset Hres) as [Hlen Hback].
  split.
  - intros ->. destruct s; [congruence|discriminate].
  - intros k z Hz Hv. destruct (Hback k z Hz) as (x & Hx & [[Hxv Hxa]| ->]).
    + rewrite Hv in Hxv. symmetry in Hxv.
      rewrite Hxa, aged_no_wrap by eauto.
      specialize (Hages k x Hx Hxv). lia.
    + simpl. rewrite Hr0. lia.
Qed.

Lemma take_S_lookup {A} (l : list A) i x :
  l !! i = Some x -> take (S i) l = take i l ++ [x].
Proof. intros H. apply take_S_r. exact H. Qed.

(** The state after the tally of one access keeps the loop invariant. *)
Lemma tally_step_inv
    (access : Cache -> Access -> option (bool * Access * Cache)) ops i c a :
  access = Read \/ access = Write ->
  loop_inv ops i c ->
  Z.of_nat (length ops) < SIZE_MAX ->
  trace_ c !! i = Some a ->
  is_tallied (op_ a) = true ->
  exists res, access c a = Some res /\
    loop_inv ops (S i)
      (tally (set_trace (snd res) (<[i := snd (fst res)]> (trace_ (snd res))))
             (fst (fst res))).
Proof.
  intros Hacc [Hops Hfresh Hsets Hlog Hacs Hhits] Hlen Ha Htal.
  assert (Hi : (i < length ops)%nat).
  { rewrite <- Hops, length_fmap. eapply lookup_lt_Some; eauto. }
  assert (Hop : ops !! i = Some (op_ a)).
  { rewrite <- Hops, list_lookup_fmap, Ha. reflexivity. }
  destruct (Hfresh i a Ha) as [Ha0 Hidx].
  destruct (lookup_lt_is_Some_2 _ _ Hidx) as [s Hs].
  destruct (Hsets _ s Hs) as [Hne Hages].
  destruct (access_step access c a s (Z.of_nat i) Hacc Hs Hne Hages
              ltac:(lia) Ha0) as (hit & s' & Hres & Hne' & Hages').
  eexists. split; [exact Hres|]. simpl.
  pose proof (tallied_le (take i ops)) as Hle.
  rewrite length_take in Hle.
  pose proof (count_hits_range (hitMiss_ c)) as Hrange.
  assert (Htake : tallied (take (S i) ops) = S (tallied (take i ops))).
  { rewrite (take_S_lookup ops i (op_ a) Hop), tallied_app. simpl.
    rewrite Htal. lia. }
  constructor; simpl; rewrite ?Htake.
  - rewrite list_fmap_insert. rewrite <- Hops. apply list_insert_id.
    rewrite list_lookup_fmap, Ha. destruct hit; reflexivity.
  - intros k a' Hk. rewrite length_insert.
    destruct (decide (k = i)) as [->|Hne1].
    + rewrite list_lookup_insert_eq in Hk by (eapply lookup_lt_Some; eauto).
      injection Hk as <-. destruct hit; simpl; auto.
    + rewrite list_lookup_insert_ne in Hk by auto. eauto.
  - intros t s1 Hs1. destruct (decide (t = Z.to_nat (index_ a))) as [->|Hne1].
    + rewrite list_lookup_insert_eq in Hs1 by auto. injection Hs1 as <-.
      split; auto. intros k z Hz Hv. specialize (Hages' k z Hz Hv). lia.
    + rewrite list_lookup_insert_ne in Hs1 by auto.
      destruct (Hsets t s1 Hs1) as [Hne2 Hages2]. split; auto.
      intros k z Hz Hv. specialize (Hages2 k z Hz Hv). lia.
  - rewrite length_app, Hlog. simpl. lia.
  - rewrite Hacs. rewrite wrap_small by lia. lia.
  - rewrite count_hits_app. simpl. rewrite Hhits.
    destruct hit; [|lia]. rewrite wrap_small by lia. lia.
Qed.

Lemma process_step_inv ops i c :
  loop_inv ops i c ->
  (i < length ops)%nat ->
  Z.of_nat (length ops) < SIZE_MAX ->
  exists c', process_step c i = Some c' /\ loop_inv ops (S i) c'.
Proof.
  intros Hinv Hi Hlen. pose proof Hinv as [Hops Hfresh Hsets Hlog Hacs Hhits].
  assert (Hi' : (i < length (trace_ c))%nat)
    by (rewrite <- Hops, length_fmap in Hi; auto).
  destruct (lookup_lt_is_Some_2 _ _ Hi') as [a Ha].
  assert (Hop : ops !! i = Some (op_ a)).
  { rewrite <- Hops, list_lookup_fmap, Ha. reflexivity. }
  unfold process_step. rewrite Ha.
  destruct (String.eqb (op_ a) "Read") eqn:ERead.
  - destruct (tally_step_inv Read ops i c a (or_introl eq_refl) Hinv Hlen Ha)
      as (res & Hres & Hinv').
    { unfold is_tallied. rewrite ERead. reflexivity. }
    rewrite Hres. eauto.
  - destruct (String.eqb (op_ a) "Write") eqn:EWrite.
    + destruct (tally_step_inv Write ops i c a (or_intror eq_refl) Hinv Hlen Ha)
        as (res & Hres & Hinv').
      { unfold is_tallied. rewrite ERead, EWrite. reflexivity. }
      rewrite Hres. eauto.
    + exists c. split; auto.
      assert (Htake : tallied (take (S i) ops) = tallied (take i ops)).
      { rewrite (take_S_lookup ops i (op_ a) Hop), tallied_app. simpl.
        unfold is_tallied. rewrite ERead, EWrite. simpl. lia. }
      constructor; rewrite ?Htake; auto.
      intros t s Hs. destruct (Hsets t s Hs) as [Hne Hages]. split; auto.
      intros k z Hz Hv. specialize (Hages k z Hz Hv). lia.
Qed.

Lemma process_loop_inv ops n : forall i c,
  loop_inv ops i c ->
  (i + n <= length ops)%nat ->
  Z.of_nat (length ops) < SIZE_MAX ->
  exists c', process_loop n i c = Some c' /\ loop_inv ops (i + n) c'.
Proof.
  induction n as [|n IH]; intros i c Hinv Hle Hlen; simpl.
  - exists c. rewrite Nat.add_0_r. auto.
  - destruct (process_step_inv ops i c Hinv ltac:(lia) Hlen)
      as (c1 & Hstep & Hinv1).
    rewrite Hstep.
    destruct (IH (S i) c1 Hinv1 ltac:(lia) Hlen) as (c' & Hloop & Hinv').
    exists c'. split; auto.
    replace (i + S n)%nat with (S i + n)%nat by lia. exact Hinv'.
Qed.

Lemma count_hits_misses hm :
  count_hits hm + count_misses hm = Z.of_nat (length hm).
Proof.
  induction hm as [|h hm IH]; simpl length; simpl count_hits;
    simpl count_misses; [reflexivity|]. destruct h; lia.
Qed.

Lemma calcIndex_mod c addr i :
  calcIndex c addr = Some i -> numSets_ c <> 0 /\ i = i mod numSets_ c.
Proof.
  unfold calcIndex. destruct (substr _ _ _); [|discriminate].
  destruct (Z.eqb_spec (numSets_ c) 0); [discriminate|].
  intros [= <-]. split; auto. rewrite Z.mod_mod; auto.
Qed.

Lemma parse_line_spec c l c' :
  parse_line c l = Some c' ->
  c' = c \/ exists a, c' = set_trace c (trace_ c ++ [a]) /\ fresh_access c a.
Proof.
  unfold parse_line. destruct l as [|tok [|refSize [|addr rest]]];
    try discriminate.
  - intros [= <-]. auto.
  - unfold setAddress.
    destruct (8 <? wrap (8 - Z.of_nat (String.length addr))); [discriminate|].
    cbv zeta. simpl address_.
    destruct (calcIndex c _) as [i|] eqn:Hi; [|discriminate].
    destruct (calcOffset c _) as [o|]; [|discriminate].
    destruct (calcTag c _) as [tg|]; [|discriminate].
    intros [= <-]. right. eexists. split; [reflexivity|].
    apply calcIndex_mod in Hi as [Hn Hi].
    unfold fresh_access. simpl. auto.
Qed.

Lemma build_trace_spec lines : forall c c1,
  build_trace c lines = Some c1 ->
  exists new, c1 = set_trace c (trace_ c ++ new) /\
              Forall (fresh_access c) new.
Proof.
  induction lines as [|l lines IH]; intros c c1; simpl.
  - intros [= <-]. exists []. rewrite app_nil_r. destruct c; auto.
  - destruct (parse_line c l) as [c'|] eqn:Hl; [|discriminate].
    intros Hrest. destruct (IH _ _ Hrest) as (new & -> & Hnew).
    apply parse_line_spec in Hl as [->|(a & -> & Ha)].
    + exists new. auto.
    + exists (a :: new). simpl. rewrite <- app_assoc. split; auto.
Qed.

(** The cache object handed to the second loop satisfies the invariant
    at position 0. *)
Lemma loop_inv_start A L C lines c0 c1 :
  0 <= A -> 0 <= C ->
  Cache_ctor A L C = Some c0 ->
  build_trace c0 lines = Some c1 ->
  loop_inv (op_ <$> trace_ c1) 0 c1.
Proof.
  intros HA0 HC Hctor Hbuild.
  assert (HA : 0 < A).
  { clear - Hctor HA0. unfold Cache_ctor in Hctor.
    destruct (calcNumSets C A L); [|discriminate].
    destruct (Z.eqb_spec A 0) as [->|]; [|lia].
    rewrite orb_true_r in Hctor. discriminate. }
  destruct (build_trace_spec _ _ _ Hbuild) as (new & -> & Hnew).
  destruct (Cache_ctor_store _ _ _ _ Hctor)
    as (Hstore & Hset & Hh & Hacc & Htr & Hhm).
  assert (Hn : 0 <= numSets_ c0).
  { clear - Hctor HC. unfold Cache_ctor, calcNumSets in Hctor.
    destruct (Z.eqb_spec (wrap (A * L)) 0) as [|Hw]; [discriminate|].
    simpl in Hctor.
    destruct ((C =? 0) || (L =? 0) || (A =? 0)); [discriminate|].
    injection Hctor as <-. simpl.
    pose proof (wrap_range (A * L)). apply Z.div_pos; lia. }
  constructor; simpl; rewrite ?Hhm, ?Hh, ?Hacc; auto.
  - rewrite Htr. simpl. intros k a Hk.
    rewrite Forall_lookup in Hnew. destruct (Hnew k a Hk)
      as (Ha0 & _ & _ & Hne & Hidx). split; auto.
    rewrite Hstore, length_replicate.
    pose proof (Z.mod_pos_bound (index_ a) (numSets_ c0) ltac:(lia)). lia.
  - intros t s Hs. rewrite Hstore in Hs.
    apply lookup_replicate in Hs as [-> _]. split.
    + rewrite Hset. destruct (Z.to_nat A) eqn:E; [lia|discriminate].
    + intros k z Hz Hv. apply lookup_replicate in Hz as [-> _]. discriminate.
Qed.

(** X22.  Along the replay of any trace that the first
    loop could build (shorter than [SIZE_MAX], on a cache constructed from
    unsigned configuration numbers), after any number [n] of iterations
    of the second loop: the loop has returned, the outcome log and the access
    counter both count the records among the first [n] whose operation is
    Read or Write, the hit counter is the number of hits in the log and
    is at most the access counter, and hits plus misses is the access
    counter.  A record with any other operation string stays in the trace
    and is not counted; when all of the first [n] records are Read or
    Write, the three lengths are equal to [n]. *)
Theorem tally_matches_processed_accesses A L C lines c0 c1 n :
  0 <= A -> 0 <= C ->
  Cache_ctor A L C = Some c0 ->
  build_trace c0 lines = Some c1 ->
  Z.of_nat (length (trace_ c1)) < SIZE_MAX ->
  (n <= length (trace_ c1))%nat ->
  exists c',
    process_loop n 0%nat c1 = Some c' /\
    length (trace_ c') = length (trace_ c1) /\
    length (hitMiss_ c') = tallied (op_ <$> take n (trace_ c1)) /\
    accesses_ c' = Z.of_nat (length (hitMiss_ c')) /\
    hits_ c' = count_hits (hitMiss_ c') /\
    0 <= hits_ c' <= accesses_ c' /\
    hits_ c' + count_misses (hitMiss_ c') = accesses_ c' /\
    (length (hitMiss_ c') <= n)%nat /\
    (Forall (fun a => op_ a = "Read" \/ op_ a = "Write") (take n (trace_ c1)) ->
     length (hitMiss_ c') = n /\ accesses_ c' = Z.of_nat n).
Proof.
  intros HA HC Hctor Hbuild Hlen Hn.
  pose proof (loop_inv_start A L C lines c0 c1 HA HC Hctor Hbuild) as Hinv.
  destruct (process_loop_inv (op_ <$> trace_ c1) n 0%nat c1 Hinv)
    as (c' & Hloop & [Hops Hfresh Hsets Hlog Hacs Hhits]).
  { rewrite length_fmap. lia. }
  { rewrite length_fmap. lia. }
  simpl in *. rewrite <- fmap_take in Hlog, Hacs.
  exists c'. split; [exact Hloop|].
  assert (Hlt : length (trace_ c') = length (trace_ c1)).
  { rewrite <- (length_fmap op_ (trace_ c')), Hops, length_fmap. auto. }
  pose proof (count_hits_range (hitMiss_ c')).
  pose proof (count_hits_misses (hitMiss_ c')).
  pose proof (tallied_le (op_ <$> take n (trace_ c1))) as Hle.
  rewrite length_fmap, length_take in Hle.
  assert (Hacs' : accesses_ c' = Z.of_nat (length (hitMiss_ c')))
    by (rewrite Hacs, Hlog; reflexivity).
  do 4 (split; [assumption|]). do 3 (split; [lia|]).
  intros Hall.
  assert (tallied (op_ <$> take n (trace_ c1)) = n); [|split; lia].
  rewrite tallied_all.
  - rewrite length_fmap, length_take. lia.
  - rewrite Forall_fmap. eapply Forall_impl; eauto.
    intros a [E|E]; simpl; unfold is_tallied; rewrite E; reflexivity.
Qed.

Lemma tally_matches_processed_accesses_witness :
  exists c', process_loop 3 0%nat ex_c1 = Some c' /\
    length (hitMiss_ c') = 3%nat /\ accesses_ c' = 3.
Proof.
  destruct (tally_matches_processed_accesses 1 4 16 ex_trace ex_c0 ex_c1 3%nat)
    as (c' & Hloop & _ & _ & _ & _ & _ & _ & _ & Hall).
  - lia.
  - lia.
  - reflexivity.
  - reflexivity.
  - vm_compute. reflexivity.
  - simpl. lia.
  - exists c'. split; [exact Hloop|]. apply Hall.
    simpl. repeat constructor.
Defined.

(** A record whose operation token is neither R nor W: it is stored in
    the trace, and neither logged nor counted. *)
Lemma unknown_op_record_not_tallied :
  exists c, simulate 1 4 16 ex_trace_unknown_op = Some c /\
    length (trace_ c) = 1%nat /\
    length (hitMiss_ c) = 0%nat /\ accesses_ c = 0 /\
    length (hitMiss_ c) <> length (trace_ c) /\
    accesses_ c <> Z.of_nat (length (trace_ c)).
Proof.
  eexists. split; [vm_compute; reflexivity|].
  vm_compute. repeat split; discriminate.
Qed.

Lemma one_valid_slot_per_tag_witness :
  Cache_ctor 2 4 16 = Some ex_d0 /\ reachable ex_d0 ex_d2 /\
  cache_ ex_d2 !! 0%nat = Some [Access_addAge (ex_access 1); ex_access 2] /\
  (1 = 1)%nat.
Proof.
  assert (Hreach : reachable ex_d0 ex_d2).
  { eapply (reach_step ex_d0 ex_d1 Write (ex_access 2));
      [|right; reflexivity|reflexivity].
    eapply (reach_step ex_d0 ex_d0 Read (ex_access 1));
      [|left; reflexivity|reflexivity].
    apply reach_init. }
  split; [reflexivity|]. split; [exact Hreach|]. split; [reflexivity|].
  exact (one_valid_slot_per_tag 2 4 16 ex_d0 ex_d2 eq_refl Hreach
           0%nat [Access_addAge (ex_access 1); ex_access 2]
           1%nat 1%nat (ex_access 2) (ex_access 2)
           eq_refl eq_refl eq_refl eq_refl eq_refl eq_refl).
Defined.

(** ** Binary strings *)

Lemma lsb_value_range rs : 0 <= lsb_value rs < 2 ^ Z.of_nat (length rs).
Proof.
  induction rs as [|ch rs IH]; simpl length; simpl lsb_value; [simpl; lia|].
  rewrite Nat2Z.inj_succ, Z.pow_succ_r by lia.
  destruct (Ascii.eqb ch "1"); lia.
Qed.

Lemma lsb_value_app p q :
  lsb_value (p ++ q) = lsb_value p + 2 ^ Z.of_nat (length p) * lsb_value q.
Proof.
  induction p as [|ch p IH]; simpl length; simpl lsb_value.
  - simpl. lia.
  - simpl app. simpl lsb_value. rewrite IH.
    rewrite Nat2Z.inj_succ, Z.pow_succ_r by lia. lia.
Qed.

Lemma binStringToInt_loop_value rs : forall i num,
  0 <= i -> 0 <= num < 2 ^ i -> i + Z.of_nat (length rs) <= 64 ->
  binStringToInt_loop rs i num = num + 2 ^ i * lsb_value rs.
Proof.
  induction rs as [|ch rs IH]; intros i num Hi Hnum Hlen;
    simpl binStringToInt_loop; simpl lsb_value; [lia|].
  simpl length in Hlen. rewrite Nat2Z.inj_succ in Hlen.
  assert (Hpow : 2 ^ (i + 1) = 2 * 2 ^ i)
    by (rewrite Z.pow_add_r by lia; lia).
  assert (Hmax : 2 ^ (i + 1) <= 2 ^ 64)
    by (apply Z.pow_le_mono_r; lia).
  rewrite IH.
  - destruct (Ascii.eqb ch "1").
    + rewrite wrap_small by (unfold SIZE_MAX, size_t_bits; lia). lia.
    + lia.
  - lia.
  - destruct (Ascii.eqb ch "1").
    + rewrite wrap_small by (unfold SIZE_MAX, size_t_bits; lia). lia.
    + lia.
  - lia.
Qed.

Lemma binStringToInt_value b :
  (length b <= 64)%nat -> binStringToInt b = bin_value b.
Proof.
  intros H. unfold binStringToInt, bin_value.
  rewrite binStringToInt_loop_value; rewrite ?length_rev; simpl; lia.
Qed.

Lemma bin_value_app x y :
  bin_value (x ++ y) = bin_value x * 2 ^ Z.of_nat (length y) + bin_value y.
Proof.
  unfold bin_value. rewrite rev_app_distr, lsb_value_app, length_rev. lia.
Qed.

Lemma bin_value_range b : 0 <= bin_value b < 2 ^ Z.of_nat (length b).
Proof.
  unfold bin_value. rewrite <- (length_rev b). apply lsb_value_range.
Qed.

(** The low [n] bits of a field are its last [n] characters. *)
Lemma bin_value_mod b n :
  (n <= length b)%nat ->
  bin_value b mod 2 ^ Z.of_nat n = bin_value (drop (length b - n) b).
Proof.
  intros Hn. rewrite <- (take_drop (length b - n) b) at 1.
  rewrite bin_value_app, length_drop.
  replace (length b - (length b - n))%nat with n by lia.
  pose proof (bin_value_range (drop (length b - n) b)) as Hr.
  rewrite length_drop in Hr.
  replace (length b - (length b - n))%nat with n in Hr by lia.
  rewrite Z.add_comm, Z.mod_add by lia. apply Z.mod_small. lia.
Qed.

(** ** [parseHex] *)

Ltac ascii_cases ch :=
  destruct ch as [b0 b1 b2 b3 b4 b5 b6 b7];
  destruct b0, b1, b2, b3, b4, b5, b6, b7.

Lemma hexBits_parsed ch :
  parsed_digit ch = true ->
  length (hexBits ch) = 4%nat /\
  hex_digit_value ch = Some (bin_value (hexBits ch)).
Proof.
  unfold parsed_digit. ascii_cases ch; simpl; intros H;
    first [discriminate H | split; vm_compute; reflexivity].
Qed.



Lemma hexBits_skipped ch : parsed_digit ch = false -> hexBits ch = [].
Proof.
  unfold parsed_digit. destruct (hexBits ch); [reflexivity|discriminate].
Qed.

Lemma parseHex_length s : length (parseHex s) = (4 * count_parsed s)%nat.
Proof.
  induction s as [|ch s IH]; simpl; auto.
  rewrite length_app, IH. destruct (parsed_digit ch) eqn:E.
  - destruct (hexBits_parsed ch E) as [-> _]. lia.
  - rewrite (hexBits_skipped ch E). simpl. lia.
Qed.

Lemma count_parsed_all s :
  all_parsed s = true -> count_parsed s = String.length s.
Proof.
  induction s as [|ch s IH]; simpl; auto.
  intros H. apply andb_true_iff in H as [-> Hs]. rewrite IH; auto.
Qed.

Lemma parseHex_value s :
  all_parsed s = true -> address_value s = Some (bin_value (parseHex s)).
Proof.
  induction s as [|ch s IH]; simpl; [reflexivity|].
  intros H. apply andb_true_iff in H as [Hch Hs].
  destruct (hexBits_parsed ch Hch) as [Hlen ->]. rewrite (IH Hs).
  rewrite bin_value_app, parseHex_length, (count_parsed_all s Hs).
  f_equal. f_equal. f_equal.
  rewrite Nat2Z.inj_mul, Z.pow_mul_r by lia. reflexivity.
Qed.

(** ** [substr] and the three fields *)

Lemma substr_in_range b pos n :
  0 <= pos <= Z.of_nat (length b) ->
  substr b pos n = Some (take (Z.to_nat n) (drop (Z.to_nat pos) b)).
Proof.
  intros H. unfold substr.
  destruct (Z.ltb_spec (Z.of_nat (length b)) pos); [lia|reflexivity].
Qed.

Lemma substr_None b pos n :
  substr b pos n = None <-> Z.of_nat (length b) < pos.
Proof.
  unfold substr. destruct (Z.ltb_spec (Z.of_nat (length b)) pos).
  - tauto.
  - split; [discriminate|lia].
Qed.

(** A 32-character bit string cut as [P ++ Q ++ I ++ O]: the tag field is
    [P ++ Q], the index field read by [calcIndex] is [Q ++ I] and its
    reduction modulo the number of sets is [I], the offset is [O]. *)
Lemma decode_fields c s (P Q I O : list ascii) :
  parseHex s = P ++ Q ++ I ++ O ->
  (length P + length Q + length I + length O = 32)%nat ->
  offsetBits_ c = Z.of_nat (length O) ->
  indexBits_ c = Z.of_nat (length Q + length I) ->
  tagBits_ c = Z.of_nat (length P + length Q) ->
  numSets_ c = 2 ^ Z.of_nat (length I) ->
  decode c s = Some (bin_value (P ++ Q), bin_value I, bin_value O).
Proof.
  intros Hb Hlen Ho Hi Ht Hn. unfold decode, calcIndex, calcOffset, calcTag.
  rewrite Hb, Ho, Hi, Ht, Hn.
  assert (Hl : length (P ++ Q ++ I ++ O) = 32%nat)
    by (rewrite !length_app; lia).
  rewrite (wrap_small (32 - _)) by (unfold SIZE_MAX, size_t_bits; lia).
  rewrite wrap_small by (unfold SIZE_MAX, size_t_bits; lia).
  rewrite !substr_in_range by lia.
  replace (Z.to_nat (32 - Z.of_nat (length O) -
                     Z.of_nat (length Q + length I)))
    with (length P) by lia.
  replace (Z.to_nat (32 - Z.of_nat (length O)))
    with (length (P ++ Q ++ I)) by (rewrite !length_app; lia).
  rewrite !Nat2Z.id. rewrite drop_app_length.
  assert (E1 : take (length Q + length I) (Q ++ I ++ O) = Q ++ I).
  { rewrite app_assoc. apply take_app_length'. rewrite length_app. lia. }
  assert (E2 : take (length P + length Q)
                 (drop (Z.to_nat 0) (P ++ Q ++ I ++ O)) = P ++ Q).
  { simpl drop. rewrite app_assoc. apply take_app_length'.
    rewrite length_app. lia. }
  assert (E3 : take (length O)
                 (drop (length (P ++ Q ++ I)) (P ++ Q ++ I ++ O)) = O).
  { replace (P ++ Q ++ I ++ O) with ((P ++ Q ++ I) ++ O)
      by (rewrite <- !app_assoc; reflexivity).
    rewrite drop_app_length. apply firstn_all. }
  rewrite E1, E2, E3.
  rewrite !binStringToInt_value by (rewrite ?length_app; lia).
  pose proof (Z.pow_pos_nonneg 2 (Z.of_nat (length I)) ltac:(lia) ltac:(lia)).
  destruct (Z.eqb_spec (2 ^ Z.of_nat (length I)) 0); [lia|].
  assert (Em : bin_value (Q ++ I) mod 2 ^ Z.of_nat (length I) = bin_value I).
  { rewrite bin_value_app, Z.add_comm, Z.mod_add by lia.
    apply Z.mod_small, bin_value_range. }
  rewrite Em. reflexivity.
Qed.

Lemma cut_four (b : list ascii) (p q n o : nat) :
  length b = (p + q + n + o)%nat ->
  exists P Q I O, b = P ++ Q ++ I ++ O /\
    length P = p /\ length Q = q /\ length I = n /\ length O = o.
Proof.
  intros H.
  exists (take p b), (take q (drop p b)), (take n (drop q (drop p b))),
         (drop n (drop q (drop p b))).
  rewrite !take_drop. split; [reflexivity|].
  rewrite !length_take, !length_drop. lia.
Qed.

(** X21.  For a valid configuration whose cache size
    and line size satisfy [log2 C + log2 L <= 32], and an address of 8
    characters among 0-9 and a-f (the ones [parseHex] turns into bits),
    the decoding succeeds, the fields fit their widths, and the tag, the
    index on [log2 numSets] bits and the offset on [offsetBits] bits put
    side by side are the 32-bit value of the address.  No assumption on
    the index field before the reduction is needed. *)
Theorem decode_recombines A L C s :
  valid_config A L C ->
  Z.log2 C + Z.log2 L <= 32 ->
  String.length s = 8%nat ->
  all_parsed s = true ->
  exists c tg ix off v,
    Cache_ctor A L C = Some c /\
    decode c s = Some (tg, ix, off) /\
    address_value s = Some v /\ 0 <= v < 2 ^ 32 /\
    0 <= off < 2 ^ getOffsetBits c /\
    0 <= ix < numSets_ c /\
    0 <= tg < 2 ^ (32 - getOffsetBits c - Z.log2 (numSets_ c)) /\
    recombine tg ix off (Z.log2 (numSets_ c)) (getOffsetBits c) = v.
Proof.
  intros (a & l & k & Ha & Hl & Hk & -> & -> & ->) Hfit Hlen Hall.
  rewrite !Z.log2_pow2 in Hfit by lia.
  assert (Hb : length (parseHex s) = 32%nat).
  { rewrite parseHex_length, (count_parsed_all s Hall), Hlen. reflexivity. }
  destruct (cut_four (parseHex s) (Z.to_nat (32 - l - k)) (Z.to_nat (a + l))
              (Z.to_nat (k - a - l)) (Z.to_nat l))
    as (P & Q & I & O & Hcut & HP & HQ & HI & HO); [lia|].
  eexists _, (bin_value (P ++ Q)), (bin_value I), (bin_value O),
          (bin_value (parseHex s)).
  split; [apply Cache_ctor_pow2; lia|].
  split; [apply (decode_fields _ s P Q I O Hcut); simpl; try lia;
          rewrite HI, Z2Nat.id by lia; reflexivity|].
  split; [apply parseHex_value; exact Hall|].
  unfold getOffsetBits. simpl. rewrite Z.log2_pow2 by lia.
  pose proof (bin_value_range (parseHex s)) as Hv. rewrite Hb in Hv.
  pose proof (bin_value_range O) as HrO. rewrite HO, Z2Nat.id in HrO by lia.
  pose proof (bin_value_range I) as HrI. rewrite HI, Z2Nat.id in HrI by lia.
  pose proof (bin_value_range (P ++ Q)) as HrT.
  rewrite length_app, HP, HQ in HrT.
  replace (Z.of_nat (Z.to_nat (32 - l - k) + Z.to_nat (a + l)))
    with (32 - l - (k - a - l)) in HrT by lia.
  do 4 (split; [assumption|]).
  unfold recombine. rewrite Hcut.
  replace (P ++ Q ++ I ++ O) with ((P ++ Q) ++ I ++ O)
    by (rewrite <- !app_assoc; reflexivity).
  rewrite (bin_value_app (P ++ Q)), (bin_value_app I), length_app, HI, HO.
  rewrite Nat2Z.inj_add, !Z2Nat.id, Z.pow_add_r by lia. ring.
Qed.

Lemma decode_recombines_witness :
  exists c, Cache_ctor 2 4 64 = Some c /\
    decode c "0000beef" = Some (1527, 3, 3) /\
    recombine 1527 3 3 3 2 = 48879.
Proof.
  destruct (decode_recombines 2 4 64 "0000beef")
    as (c & tg & ix & off & v & Hc & Hd & _).
  - exists 1, 2, 6. repeat split; lia.
  - vm_compute. discriminate.
  - reflexivity.
  - reflexivity.
  - exists c. split; [exact Hc|].
    vm_compute in Hc. injection Hc as <-. split; reflexivity.
Defined.

Lemma count_parsed_le s : (count_parsed s <= String.length s)%nat.
Proof.
  induction s as [|ch s IH]; simpl; auto. destruct (parsed_digit ch); lia.
Qed.

(** C4, at a failing input.  A 16-way cache of 128 MiB with 64-byte lines
    is a valid configuration and the address 00000000 has all its fields
    equal to 0, yet nothing is decoded: [calcIndex] starts its field at
    [(32 - 6) - 27], which wraps around as an unsigned number, so [substr]
    throws, while [calcOffset] and [calcTag] both return 0 on the same
    address.  The same happens for every valid configuration with
    [log2 C + log2 L > 32] and every address of at most 8 characters. *)
Theorem decode_fails_on_large_cache :
  (valid_config 16 64 134217728 /\
   String.length "00000000" = 8%nat /\
   address_value "00000000" = Some 0 /\
   exists c, Cache_ctor 16 64 134217728 = Some c /\
             calcIndex c "00000000" = None /\
             calcOffset c "00000000" = Some 0 /\
             calcTag c "00000000" = Some 0 /\
             decode c "00000000" = None) /\
  (forall A L C s,
     valid_config A L C -> 32 < Z.log2 C + Z.log2 L ->
     (String.length s <= 8)%nat ->
     exists c, Cache_ctor A L C = Some c /\
               calcIndex c s = None /\ decode c s = None).
Proof.
  assert (Hgen : forall A L C s,
            valid_config A L C -> 32 < Z.log2 C + Z.log2 L ->
            (String.length s <= 8)%nat ->
            exists c, Cache_ctor A L C = Some c /\
                      calcIndex c s = None /\ decode c s = None).
  { intros A L C s (a & l & k & Ha & Hl & Hk & -> & -> & ->) Hbig Hlen.
    rewrite !Z.log2_pow2 in Hbig by lia.
    eexists. split; [apply Cache_ctor_pow2; lia|].
    assert (Hidx : calcIndex
              (mkCache (wrap (2 ^ (k - a - l) * 2 ^ a)) (2 ^ (k - a - l))
                 (2 ^ l) (2 ^ a) (2 ^ k) l k (32 - k + a) 0 0
                 (replicate (Z.to_nat (2 ^ (k - a - l)))
                    (replicate (Z.to_nat (2 ^ a)) Access_default)) [] [])
              s = None).
    { unfold calcIndex. cbn [offsetBits_ indexBits_ numSets_].
      assert (Hnone : substr (parseHex s) (wrap (wrap (32 - l) - k)) k = None).
      { apply substr_None.
        rewrite (wrap_small (32 - l)) by (unfold SIZE_MAX, size_t_bits; lia).
        replace (wrap (32 - l - k)) with (2 ^ 64 + (32 - l - k)).
        - rewrite parseHex_length. pose proof (count_parsed_le s).
          change (2 ^ 64) with 18446744073709551616. lia.
        - unfold wrap, size_t_bits.
          change (2 ^ 64) with 18446744073709551616.
          apply Z.mod_unique with (q := -1); lia. }
      rewrite Hnone. reflexivity. }
    split; [exact Hidx|]. unfold decode. rewrite Hidx. reflexivity. }
  split; [|exact Hgen].
  split; [exists 4, 6, 27; repeat split; lia|].
  split; [reflexivity|]. split; [reflexivity|].
  pose proof (Cache_ctor_pow2 4 6 27 ltac:(lia) ltac:(lia) ltac:(lia)) as H.
  eexists. split; [exact H|].
  unfold decode, calcIndex, calcOffset, calcTag.
  cbn [offsetBits_ indexBits_ numSets_ tagBits_].
  repeat split; reflexivity.
Qed.

Lemma decode_fails_on_large_cache_witness :
  exists c, Cache_ctor 1 65536 131072 = Some c /\
            decode c "0000beef" = None.
Proof.
  destruct decode_fails_on_large_cache as [_ Hgen].
  destruct (Hgen 1 65536 131072 "0000beef") as (c & Hc & _ & Hd).
  - exists 0, 16, 17. repeat split; lia.
  - vm_compute. reflexivity.
  - simpl. lia.
  - exists c. split; [exact Hc|exact Hd].
Defined.

(** An upper-case digit is a hexadecimal digit that [parseHex] does not
    turn into bits: address 0000000A, of value 10, decodes to the fields
    of address 0 in the configuration (1, 16, 256). *)
Lemma decode_upper_case_digit :
  Cache_ctor 1 16 256 = Some ex_e0 /\
  address_value "0000000A" = Some 10 /\
  decode ex_e0 "0000000A" = Some (0, 0, 0) /\
  recombine 0 0 0 (Z.log2 (numSets_ ex_e0)) (getOffsetBits ex_e0) <> 10.
Proof. repeat split. vm_compute. discriminate. Qed.

(** ** Characters that are not digits *)

Lemma decode_None_iff c s :
  0 <= offsetBits_ c -> 0 <= indexBits_ c ->
  offsetBits_ c + indexBits_ c <= 32 ->
  numSets_ c <> 0 ->
  decode c s = None <->
  Z.of_nat (length (parseHex s)) < 32 - offsetBits_ c.
Proof.
  intros Ho Hi Hsum Hn. unfold decode, calcIndex, calcOffset, calcTag.
  rewrite (wrap_small (32 - _)) by (unfold SIZE_MAX, size_t_bits; lia).
  rewrite wrap_small by (unfold SIZE_MAX, size_t_bits; lia).
  destruct (substr (parseHex s) (32 - offsetBits_ c - indexBits_ c) _)
    as [fi|] eqn:E1.
  - destruct (Z.eqb_spec (numSets_ c) 0); [contradiction|].
    destruct (substr (parseHex s) (32 - offsetBits_ c) _) as [fo|] eqn:E2.
    + destruct (substr (parseHex s) 0 _) as [ft|] eqn:E3.
      * split; [discriminate|]. intros H.
        assert (substr (parseHex s) (32 - offsetBits_ c) (offsetBits_ c) = None)
          by (apply substr_None; exact H).
        congruence.
      * apply substr_None in E3. lia.
    + apply substr_None in E2. tauto.
  - apply substr_None in E1. split; [lia|reflexivity].
Qed.





(** ** The uninitialised result of [getOldest], along a run *)

(** C10.  [getOldest] returns a slot index exactly when the set has a
    valid slot of age greater than 0 (otherwise its result is the
    uninitialised local), and the index is then in range.  At the call
    sites, in the miss branch of [Read] and [Write], the set has just been
    aged by [addAge]: if it is full (and has at least one slot, with ages
    below [SIZE_MAX]) every slot is valid with age at least 1, so
    [getOldest] is defined there and the routine returns a result.  These
    side conditions hold all along a run: from a constructed cache, the
    replay of a trace shorter than [SIZE_MAX] returns after any number of
    iterations, never having read the uninitialised local. *)
Theorem getOldest_defined_at_call_sites :
  (forall c t s, cache_ c !! Z.to_nat t = Some s ->
     ((exists j, getOldest c t = Some j) <->
      (exists k x, s !! k = Some x /\ valid_ x = true /\ 0 < age_ x)) /\
     (forall j, getOldest c t = Some j -> (j < length s)%nat))
  /\
  (forall (access : Cache -> Access -> option (bool * Access * Cache)) c r s,
     access = Read \/ access = Write ->
     cache_ c !! Z.to_nat (index_ r) = Some s ->
     s <> [] ->
     (forall k z, s !! k = Some z -> valid_ z = true ->
                  0 <= age_ z < SIZE_MAX) ->
     (exists c1 s1,
        addAge c (index_ r) = Some c1 /\
        cache_ c1 !! Z.to_nat (index_ r) = Some s1 /\
        (isFull c1 (index_ r) = Some true ->
           (forall k y, s1 !! k = Some y -> valid_ y = true /\ 1 <= age_ y) /\
           exists j, getOldest c1 (index_ r) = Some j)) /\
     (exists res, access c r = Some res))
  /\
  (forall A L C lines c0 c1 n,
     0 <= A -> 0 <= C ->
     Cache_ctor A L C = Some c0 ->
     build_trace c0 lines = Some c1 ->
     Z.of_nat (length (trace_ c1)) < SIZE_MAX ->
     (n <= length (trace_ c1))%nat ->
     exists c', process_loop n 0%nat c1 = Some c').
Proof.
  split; [|split].
  - intros c t s Hs. unfold getOldest. rewrite Hs. split.
    + apply getOldest_set_defined.
    + intros j Hj. apply getOldest_set_Some in Hj as [Hold _].
      apply is_oldest_lt; auto.
  - intros access c r s Hacc Hs Hne Hages. split.
    + assert (Hlt : (Z.to_nat (index_ r) < length (cache_ c))%nat)
        by (eapply lookup_lt_Some; eauto).
      unfold addAge, isFull, getOldest. rewrite Hs. simpl.
      eexists _, (addAge_set s). split; [reflexivity|]. simpl.
      rewrite list_lookup_insert_eq by auto. split; [reflexivity|].
      rewrite isFull_set_addAge. intros [= Hfull]. split.
      * apply full_aged_positive; auto.
      * destruct (full_aged_getOldest s Hne Hfull Hages) as (j & Hj & _).
        eauto.
    + destruct (access_total access c r s Hacc Hs Hne Hages) as (h & s' & H).
      eauto.
  - intros A L C lines c0 c1 n HA HC Hctor Hbuild Hlen Hn.
    pose proof (loop_inv_start A L C lines c0 c1 HA HC Hctor Hbuild) as Hinv.
    destruct (process_loop_inv (op_ <$> trace_ c1) n 0%nat c1 Hinv)
      as (c' & Hloop & _); rewrite ?length_fmap; try lia.
    eauto.
Qed.

Lemma getOldest_defined_at_call_sites_witness :
  (exists j, getOldest (ex_cache [ex_line 7 1 true false;
                                  ex_line 9 2 true false]) 0 = Some j) /\
  (exists res, Write (ex_cache [ex_line 7 0 true false;
                                ex_line 9 1 true false]) (ex_access 4)
               = Some res).
Proof.
  destruct getOldest_defined_at_call_sites as (Hdef & Hsite & _). split.
  - apply (Hdef (ex_cache [ex_line 7 1 true false; ex_line 9 2 true false])
                0 [ex_line 7 1 true false; ex_line 9 2 true false] eq_refl).
    exists 0%nat, (ex_line 7 1 true false). repeat split.
  - apply (Hsite Write
             (ex_cache [ex_line 7 0 true false; ex_line 9 1 true false])
             (ex_access 4)
             [ex_line 7 0 true false; ex_line 9 1 true false]
             (or_intror eq_refl) eq_refl).
    + discriminate.
    + intros [|[|k]] z Hz _; simpl in Hz; try discriminate;
        injection Hz as <-; simpl; unfold SIZE_MAX, size_t_bits; lia.
Defined.

(** * Further properties of the code *)

(** ** The two outcomes of an access on its set *)

Lemma access_set_cases access_set s r hit s' :
  access_set = Read_set \/ access_set = Write_set ->
  access_set s r = Some (hit, s') ->
  (hit = true /\
   exists j x, findTag s 0%nat (tag_ r) = Some j /\ s !! j = Some x /\
     valid_ x = true /\ tag_ x = tag_ r /\
     ((access_set = Read_set /\ s' = addAge_set s) \/
      (access_set = Write_set /\
       s' = <[j := setDirty (aged x)]> (addAge_set s)))) \/
  (hit = false /\ findTag s 0%nat (tag_ r) = None /\
   exists j, (j < length s)%nat /\
     s' = <[j := setValid r]> (addAge_set s) /\
     (isFull_set s = true -> getOldest_set (addAge_set s) = Some j) /\
     (isFull_set s = false ->
        exists x, s !! j = Some x /\ valid_ x = false /\
          forall k y, (k < j)%nat -> s !! k = Some y -> valid_ y = true)).
Proof.
  intros Hacc Hres.
  destruct (findTag s 0%nat (tag_ r)) as [j|] eqn:Hf.
  - left. pose proof Hf as Hf'. rewrite <- (findTag_addAge s) in Hf'.
    destruct (findTag_lookup _ _ _ Hf) as (x & Hx & Hxv & Hxt).
    destruct Hacc as [->| ->]; unfold Read_set, Write_set in Hres;
      rewrite Hf' in Hres.
    + injection Hres as <- <-. split; auto. exists j, x. auto 10.
    + rewrite addAge_set_lookup, Hx in Hres. simpl in Hres.
      injection Hres as <- <-. split; auto. exists j, x. auto 10.
  - right. rewrite (access_set_miss access_set s r Hacc Hf) in Hres.
    destruct (miss_set (addAge_set s) r) as [s1|] eqn:Hm; [|discriminate].
    injection Hres as <- <-.
    destruct (miss_set_shape _ _ _ Hm) as (j & Hlt & -> & Hfull & Hfree).
    rewrite addAge_set_length in Hlt. rewrite isFull_set_addAge in *.
    split; auto. split; auto. exists j. repeat split; auto.
    intros Hnf. destruct (Hfree Hnf) as (x' & Hx' & Hv' & Hbefore).
    rewrite addAge_set_lookup in Hx'.
    destruct (s !! j) as [x|] eqn:Hx; [|discriminate]. injection Hx' as <-.
    rewrite aged_valid in Hv'. exists x. split; auto. split; auto.
    intros k y Hk Hy. specialize (Hbefore k (aged y) Hk).
    rewrite addAge_set_lookup, Hy, aged_valid in Hbefore. auto.
Qed.

(** An access that returns, seen from the cache object. *)
Lemma access_result
    (access : Cache -> Access -> option (bool * Access * Cache))
    c r hit r' c' :
  access = Read \/ access = Write ->
  access c r = Some (hit, r', c') ->
  exists access_set s s',
    (access_set = Read_set \/ access_set = Write_set) /\
    (access = Read -> access_set = Read_set) /\
    (access = Write -> access_set = Write_set) /\
    cache_ c !! Z.to_nat (index_ r) = Some s /\
    access_set s r = Some (hit, s') /\
    r' = (if hit then r else setValid r) /\
    c' = after_access c (index_ r) s' hit.
Proof.
  intros Hacc Hres.
  destruct (cache_ c !! Z.to_nat (index_ r)) as [s|] eqn:Hs.
  2: { destruct Hacc as [->| ->].
       - rewrite Read_out_of_range in Hres by auto. discriminate.
       - rewrite Write_out_of_range in Hres by auto. discriminate. }
  assert (Hne : Read <> Write).
  { intros E.
    assert (H : Read (ex_cache [ex_line 9 0 true false]) (ex_access 9)
                = Write (ex_cache [ex_line 9 0 true false]) (ex_access 9))
      by (rewrite E; reflexivity).
    vm_compute in H. discriminate. }
  destruct Hacc as [->| ->].
  - rewrite (Read_unfold c r s Hs) in Hres.
    destruct (Read_set s r) as [[h s1]|] eqn:Hset; [|discriminate].
    simpl in Hres. injection Hres as <- <- <-.
    exists Read_set, s, s1. repeat split; auto. intros E. congruence.
  - rewrite (Write_unfold c r s Hs) in Hres.
    destruct (Write_set s r) as [[h s1]|] eqn:Hset; [|discriminate].
    simpl in Hres. injection Hres as <- <- <-.
    exists Write_set, s, s1. repeat split; auto. intros E.
    symmetry in E. congruence.
Qed.

(** ** What an access leaves alone *)

(** X1.  A call of [Read] or [Write] that returns changes nothing of the
    cache object but the target set and the outcome log: the
    configuration, the two counters and the trace are the same, the log
    has exactly one more entry, the outcome, the number of sets and the
    size of every set are the same, and every other set is untouched.
    The access handed back is the access itself on a hit and the access
    marked valid on a miss. *)
Theorem access_frame
    (access : Cache -> Access -> option (bool * Access * Cache))
    c r hit r' c' :
  access = Read \/ access = Write ->
  access c r = Some (hit, r', c') ->
  (numSets_ c', lineSize_ c', setSize_ c', cacheSize_ c', numBlocks_ c')
    = (numSets_ c, lineSize_ c, setSize_ c, cacheSize_ c, numBlocks_ c) /\
  (offsetBits_ c', indexBits_ c', tagBits_ c')
    = (offsetBits_ c, indexBits_ c, tagBits_ c) /\
  hits_ c' = hits_ c /\ accesses_ c' = accesses_ c /\
  trace_ c' = trace_ c /\
  hitMiss_ c' = hitMiss_ c ++ [hit] /\
  r' = (if hit then r else setValid r) /\
  length (cache_ c') = length (cache_ c) /\
  (forall u, u <> Z.to_nat (index_ r) -> cache_ c' !! u = cache_ c !! u) /\
  (forall u s, cache_ c !! u = Some s ->
     exists s', cache_ c' !! u = Some s' /\ length s' = length s).
Proof.
  intros Hacc Hres.
  destruct (access_result access c r hit r' c' Hacc Hres)
    as (aset & s & s' & Haset & _ & _ & Hs & Hset & -> & ->).
  destruct (access_set_backward aset s r hit s' Haset Hset) as [Hlen _].
  unfold after_access. simpl. repeat (split; [reflexivity|]).
  split; [apply length_insert|]. split.
  - intros u Hu. apply list_lookup_insert_ne. auto.
  - intros u s0 Hs0. destruct (decide (u = Z.to_nat (index_ r))) as [->|Hne].
    + exists s'. rewrite list_lookup_insert_eq
        by (eapply lookup_lt_Some; eauto).
      split; auto. congruence.
    + exists s0. rewrite list_lookup_insert_ne by auto. auto.
Qed.

Lemma access_frame_witness :
  exists c', Read (ex_cache [ex_line 7 3 true false; ex_line 9 5 true false])
                  (ex_access 9) = Some (true, ex_access 9, c') /\
             hitMiss_ c' = [true] /\ hits_ c' = 0 /\ accesses_ c' = 0.
Proof.
  assert (H : exists c',
             Read (ex_cache [ex_line 7 3 true false; ex_line 9 5 true false])
                  (ex_access 9) = Some (true, ex_access 9, c'))
    by (eexists; vm_compute; reflexivity).
  destruct H as [c' H]. exists c'. split; [exact H|].
  destruct (access_frame Read _ _ _ _ _ (or_introl eq_refl) H)
    as (_ & _ & Hh & Ha & _ & Hlog & _).
  repeat split; assumption.
Defined.

(** ** Validity of the slots *)

Lemma count_valid_addAge s : count_valid (addAge_set s) = count_valid s.
Proof.
  induction s as [|x s IH]; simpl; auto.
  fold (aged x). fold (addAge_set s). rewrite aged_valid, IH. reflexivity.
Qed.

Lemma count_valid_insert s : forall j x y,
  s !! j = Some x ->
  (count_valid (<[j := y]> s) + (if valid_ x then 1 else 0) =
   count_valid s + (if valid_ y then 1 else 0))%nat.
Proof.
  induction s as [|z s IH]; intros [|j] x y Hx; simpl in *; try discriminate.
  - injection Hx as ->. lia.
  - specialize (IH j x y Hx). lia.
Qed.

Lemma count_valid_full s :
  isFull_set s = true <-> count_valid s = length s.
Proof.
  induction s as [|x s IH]; simpl; [tauto|].
  assert (Hle : (count_valid s <= length s)%nat).
  { clear. induction s as [|y s IH]; simpl; auto. destruct (valid_ y); lia. }
  destruct (valid_ x); simpl.
  - rewrite IH. lia.
  - split; [discriminate|lia].
Qed.

(** X2.  Slots are never invalidated: a slot that is valid before a call
    of [Read] or [Write] is valid after it.  The number of valid slots of
    the target set grows by one on a miss in a set that is not full and is
    unchanged otherwise (a hit, or a miss in a full set). *)
Theorem valid_slots_after_access
    (access : Cache -> Access -> option (bool * Access * Cache))
    c r hit r' c' s :
  access = Read \/ access = Write ->
  access c r = Some (hit, r', c') ->
  cache_ c !! Z.to_nat (index_ r) = Some s ->
  exists s', cache_ c' !! Z.to_nat (index_ r) = Some s' /\
    (forall i x, s !! i = Some x -> valid_ x = true ->
       exists y, s' !! i = Some y /\ valid_ y = true) /\
    count_valid s' =
      (if hit || isFull_set s then count_valid s else S (count_valid s)).
Proof.
  intros Hacc Hres Hs.
  destruct (access_result access c r hit r' c' Hacc Hres)
    as (aset & s0 & s' & Haset & _ & _ & Hs0 & Hset & -> & ->).
  assert (s0 = s) as -> by congruence.
  exists s'. split; [eapply after_access_lookup; eauto|].
  destruct (access_set_cases aset s r hit s' Haset Hset)
    as [(-> & j & x & Hf & Hx & Hxv & Hxt & Hs')
       |(-> & Hf & j & Hlt & -> & Hfull & Hfree)].
  - simpl. destruct Hs' as [[_ ->]|[_ ->]].
    + split; [|apply count_valid_addAge].
      intros i z Hz Hzv. exists (aged z).
      rewrite addAge_set_lookup, Hz, aged_valid. auto.
    + split.
      * intros i z Hz Hzv. destruct (decide (i = j)) as [->|Hne].
        -- exists (setDirty (aged x)). rewrite list_lookup_insert_eq
             by (rewrite addAge_set_length; eapply lookup_lt_Some; eauto).
           simpl. rewrite aged_valid. auto.
        -- exists (aged z). rewrite list_lookup_insert_ne by auto.
           rewrite addAge_set_lookup, Hz, aged_valid. auto.
      * pose proof (count_valid_insert (addAge_set s) j (aged x)
                      (setDirty (aged x))) as Hc.
        rewrite addAge_set_lookup, Hx in Hc. specialize (Hc eq_refl).
        simpl in Hc. rewrite count_valid_addAge in Hc.
        destruct (valid_ (aged x)); lia.
  - simpl. split.
    + intros i z Hz Hzv. destruct (decide (i = j)) as [->|Hne].
      * exists (setValid r). rewrite list_lookup_insert_eq
          by (rewrite addAge_set_length; auto). auto.
      * exists (aged z). rewrite list_lookup_insert_ne by auto.
        rewrite addAge_set_lookup, Hz, aged_valid. auto.
    + destruct (lookup_lt_is_Some_2 s j Hlt) as [x Hx].
      pose proof (count_valid_insert (addAge_set s) j (aged x) (setValid r))
        as Hc.
      rewrite addAge_set_lookup, Hx in Hc. specialize (Hc eq_refl).
      simpl in Hc. rewrite count_valid_addAge, aged_valid in Hc.
      destruct (isFull_set s) eqn:Hfl.
      * rewrite isFull_set_Forall, Forall_lookup in Hfl.
        pose proof (Hfl j x Hx) as Hv. simpl in Hv. rewrite Hv in Hc. lia.
      * destruct (Hfree eq_refl) as (x0 & Hx0 & Hv0 & _).
        assert (x0 = x) as -> by congruence. rewrite Hv0 in Hc. lia.
Qed.

Lemma valid_slots_after_access_witness :
  exists c' s',
    Read (ex_cache [ex_line 7 5 true true; ex_line 9 5 false false])
         (ex_access 4) = Some (false, ex_access 4, c') /\
    cache_ c' !! 0%nat = Some s' /\ count_valid s' = 2%nat.
Proof.
  assert (H : exists c',
             Read (ex_cache [ex_line 7 5 true true; ex_line 9 5 false false])
                  (ex_access 4) = Some (false, ex_access 4, c'))
    by (eexists; vm_compute; reflexivity).
  destruct H as [c' H].
  destruct (valid_slots_after_access Read _ _ _ _ _
              [ex_line 7 5 true true; ex_line 9 5 false false]
              (or_introl eq_refl) H eq_refl) as (s' & Hs' & _ & Hc).
  exists c', s'. split; [exact H|]. split; [exact Hs'|]. exact Hc.
Defined.

(** ** A line that was just accessed is resident *)

Lemma access_hits_present
    (access : Cache -> Access -> option (bool * Access * Cache)) c r s k z :
  access = Read \/ access = Write ->
  cache_ c !! Z.to_nat (index_ r) = Some s ->
  s !! k = Some z -> valid_ z = true -> tag_ z = tag_ r ->
  exists c', access c r = Some (true, r, c').
Proof.
  intros Hacc Hs Hk Hv Ht.
  destruct (access_unfold access c r s Hacc Hs) as (aset & Haset & Hun).
  destruct (findTag_present s (tag_ r) k z Hk Hv Ht) as [j Hj].
  destruct (access_set_hit aset s r j Haset Hj) as (s' & Hhit & _).
  rewrite Hhit in Hun. simpl in Hun. eauto.
Qed.

(** X3.  After any call of [Read] or [Write] that returns, hit or miss,
    the line is in the cache: an immediate second call of [Read] or
    [Write] for the same index and tag returns a hit. *)
Theorem access_then_hit
    (first second : Cache -> Access -> option (bool * Access * Cache))
    c r hit r' c' r2 :
  first = Read \/ first = Write ->
  second = Read \/ second = Write ->
  first c r = Some (hit, r', c') ->
  index_ r2 = index_ r -> tag_ r2 = tag_ r ->
  exists c'', second c' r2 = Some (true, r2, c'').
Proof.
  intros H1 H2 Hres Hidx Htag.
  destruct (access_result first c r hit r' c' H1 Hres)
    as (aset & s & s' & Haset & _ & _ & Hs & Hset & -> & ->).
  assert (Hs' : cache_ (after_access c (index_ r) s' hit)
                  !! Z.to_nat (index_ r2) = Some s')
    by (rewrite Hidx; eapply after_access_lookup; eauto).
  destruct (access_set_cases aset s r hit s' Haset Hset)
    as [(-> & j & x & Hf & Hx & Hxv & Hxt & Hcase)
       |(-> & Hf & j & Hlt & -> & _)].
  - assert (Hj : (j < length (addAge_set s))%nat)
      by (rewrite addAge_set_length; eapply lookup_lt_Some; eauto).
    destruct Hcase as [[_ ->]|[_ ->]].
    + apply (access_hits_present second _ r2 _ j (aged x) H2 Hs').
      * rewrite addAge_set_lookup, Hx. reflexivity.
      * rewrite aged_valid. auto.
      * rewrite aged_tag. congruence.
    + apply (access_hits_present second _ r2 _ j (setDirty (aged x)) H2 Hs').
      * apply list_lookup_insert_eq. auto.
      * simpl. rewrite aged_valid. auto.
      * simpl. rewrite aged_tag. congruence.
  - apply (access_hits_present second _ r2 _ j (setValid r) H2 Hs').
    + apply list_lookup_insert_eq. rewrite addAge_set_length. auto.
    + reflexivity.
    + simpl. congruence.
Qed.

Lemma access_then_hit_witness :
  exists c' c'',
    Read (ex_cache [ex_line 7 5 true true; ex_line 9 5 true false])
         (ex_access 4) = Some (false, ex_access 4, c') /\
    Write c' (ex_access 4) = Some (true, ex_access 4, c'').
Proof.
  assert (H : exists c',
             Read (ex_cache [ex_line 7 5 true true; ex_line 9 5 true false])
                  (ex_access 4) = Some (false, ex_access 4, c'))
    by (eexists; vm_compute; reflexivity).
  destruct H as [c' H].
  destruct (access_then_hit Read Write _ _ _ _ _ (ex_access 4)
              (or_introl eq_refl) (or_intror eq_refl) H eq_refl eq_refl)
    as [c'' H2].
  exists c', c''. split; assumption.
Defined.

(** ** Misses *)

(** X4.  A miss in a set that is not full never evicts: whatever the
    ages, the call returns a miss, the new line goes to the first slot
    that is not valid, and every other slot is the aged original. *)
Theorem miss_fills_first_free
    (access : Cache -> Access -> option (bool * Access * Cache)) c r s :
  access = Read \/ access = Write ->
  cache_ c !! Z.to_nat (index_ r) = Some s ->
  isFull_set s = false ->
  (forall k z, s !! k = Some z -> ~ (valid_ z = true /\ tag_ z = tag_ r)) ->
  exists j x c',
    access c r = Some (false, setValid r, c') /\
    s !! j = Some x /\ valid_ x = false /\
    (forall k y, (k < j)%nat -> s !! k = Some y -> valid_ y = true) /\
    cache_ c' !! Z.to_nat (index_ r)
      = Some (<[j := setValid r]> (addAge_set s)).
Proof.
  intros Hacc Hs Hfull Hmiss.
  destruct (access_unfold access c r s Hacc Hs) as (aset & Haset & Hun).
  apply findTag_None with (i := 0%nat) in Hmiss.
  rewrite (access_set_miss aset s r Haset Hmiss) in Hun.
  unfold miss_set in Hun. rewrite isFull_set_addAge, Hfull in Hun.
  simpl in Hun.
  assert (Hres : aset s r
            = Some (false, snd (Insert_set (addAge_set s) (setValid r)))).
  { rewrite (access_set_miss aset s r Haset Hmiss). unfold miss_set.
    rewrite isFull_set_addAge, Hfull. reflexivity. }
  destruct (access_set_cases aset s r false _ Haset Hres)
    as [(E & _)|(_ & _ & j & Hlt & Hs' & _ & Hfree)]; [discriminate|].
  destruct (Hfree Hfull) as (x & Hx & Hxv & Hbefore).
  exists j, x. eexists. split; [exact Hun|].
  split; auto. split; auto. split; auto.
  rewrite <- Hs'. eapply after_access_lookup; eauto.
Qed.

Lemma miss_fills_first_free_witness :
  exists c',
    Write (ex_cache [ex_line 7 5 true true; ex_line 9 5 false false])
          (ex_access 4) = Some (false, ex_access 4, c') /\
    cache_ c' !! 0%nat = Some [ex_line 7 6 true true; ex_access 4].
Proof.
  destruct (miss_fills_first_free Write
              (ex_cache [ex_line 7 5 true true; ex_line 9 5 false false])
              (ex_access 4)
              [ex_line 7 5 true true; ex_line 9 5 false false]
              (or_intror eq_refl) eq_refl eq_refl)
    as (j & x & c' & Hres & _).
  - intros [|[|k]] z Hz [Hv Ht]; simpl in Hz; try discriminate;
      injection Hz as <-; discriminate.
  - exists c'. split; [exact Hres|].
    vm_compute in Hres. injection Hres as <-. reflexivity.
Defined.

(** X5.  Direct-mapped conflict: in a set of one slot holding a valid
    line with another tag (of age below [SIZE_MAX]), every call of [Read]
    or [Write] is a miss, and afterwards the set holds the new line only:
    the resident line is evicted, whatever its dirty flag. *)
Theorem direct_mapped_conflict_evicts
    (access : Cache -> Access -> option (bool * Access * Cache)) c r x :
  access = Read \/ access = Write ->
  cache_ c !! Z.to_nat (index_ r) = Some [x] ->
  valid_ x = true -> tag_ x <> tag_ r ->
  0 <= age_ x < SIZE_MAX ->
  exists c', access c r = Some (false, setValid r, c') /\
             cache_ c' !! Z.to_nat (index_ r) = Some [setValid r].
Proof.
  intros Hacc Hs Hv Ht Hage.
  destruct (access_unfold access c r [x] Hacc Hs) as (aset & Haset & Hun).
  assert (Hmiss : findTag [x] 0%nat (tag_ r) = None).
  { simpl. rewrite Hv. destruct (Z.eqb_spec (tag_ x) (tag_ r)); [contradiction|].
    reflexivity. }
  rewrite (access_set_miss aset [x] r Haset Hmiss) in Hun.
  assert (Hfull : isFull_set [x] = true) by (simpl; rewrite Hv; reflexivity).
  destruct (full_aged_getOldest [x] ltac:(discriminate) Hfull)
    as (j & Hj & Hold & _).
  { intros [|k] z Hz _; simpl in Hz; [|discriminate]. congruence. }
  apply is_oldest_lt in Hold. rewrite addAge_set_length in Hold.
  simpl in Hold. assert (j = 0%nat) as -> by lia.
  unfold miss_set in Hun. rewrite isFull_set_addAge, Hfull, Hj in Hun.
  simpl in Hun. eexists. split; [exact Hun|].
  erewrite after_access_lookup by eauto. reflexivity.
Qed.

Lemma direct_mapped_conflict_evicts_witness :
  exists c',
    Read (ex_cache [ex_line 7 5 true true]) (ex_access 4)
      = Some (false, ex_access 4, c') /\
    cache_ c' !! 0%nat = Some [ex_access 4].
Proof.
  destruct (direct_mapped_conflict_evicts Read
              (ex_cache [ex_line 7 5 true true]) (ex_access 4)
              (ex_line 7 5 true true) (or_introl eq_refl) eq_refl eq_refl)
    as (c' & Hres & Hset).
  - discriminate.
  - simpl. unfold SIZE_MAX, size_t_bits. lia.
  - exists c'. split; [exact Hres|exact Hset].
Defined.

(** ** Dirty flags *)

(** X6.  The dirty flag is sticky until the slot is overwritten.  A hit
    of [Read] leaves every dirty flag of the set as it was; a hit of
    [Write] sets the flag of the first valid slot carrying the tag and
    leaves the others as they were; on a miss every slot but the one that
    receives the new line keeps its flag. *)
Theorem dirty_flags_after_access
    (access : Cache -> Access -> option (bool * Access * Cache))
    c r hit r' c' s :
  access = Read \/ access = Write ->
  access c r = Some (hit, r', c') ->
  cache_ c !! Z.to_nat (index_ r) = Some s ->
  exists s', cache_ c' !! Z.to_nat (index_ r) = Some s' /\
    (access = Read -> hit = true ->
       forall i x, s !! i = Some x ->
         exists y, s' !! i = Some y /\ dirty_ y = dirty_ x) /\
    (access = Write -> hit = true ->
       exists j, findTag s 0%nat (tag_ r) = Some j /\
         forall i x, s !! i = Some x ->
           exists y, s' !! i = Some y /\
             dirty_ y = (if decide (i = j) then true else dirty_ x)) /\
    (hit = false ->
       exists j, s' !! j = Some (setValid r) /\
         forall i x, i <> j -> s !! i = Some x ->
           exists y, s' !! i = Some y /\ dirty_ y = dirty_ x).
Proof.
  intros Hacc Hres Hs.
  destruct (access_result access c r hit r' c' Hacc Hres)
    as (aset & s0 & s' & Haset & HR & HW & Hs0 & Hset & -> & ->).
  assert (s0 = s) as -> by congruence.
  exists s'. split; [eapply after_access_lookup; eauto|].
  assert (Hdiff : Read_set <> Write_set).
  { intros E.
    assert (H : Read_set [ex_line 9 0 true false] (ex_access 9)
                = Write_set [ex_line 9 0 true false] (ex_access 9))
      by (rewrite E; reflexivity).
    vm_compute in H. discriminate. }
  destruct (access_set_cases aset s r hit s' Haset Hset)
    as [(-> & j & x & Hf & Hx & Hxv & Hxt & Hcase)
       |(-> & Hf & j & Hlt & -> & _)].
  - split; [|split; [|discriminate]].
    + intros E _. specialize (HR E).
      destruct Hcase as [[_ ->]|[E' _]]; [|congruence].
      intros i z Hz. exists (aged z).
      rewrite addAge_set_lookup, Hz, aged_dirty. auto.
    + intros E _. specialize (HW E).
      destruct Hcase as [[E' _]|[_ ->]]; [congruence|].
      exists j. split; auto. intros i z Hz.
      destruct (decide (i = j)) as [->|Hne].
      * exists (setDirty (aged x)). rewrite list_lookup_insert_eq
          by (rewrite addAge_set_length; eapply lookup_lt_Some; eauto).
        auto.
      * exists (aged z). rewrite list_lookup_insert_ne by auto.
        rewrite addAge_set_lookup, Hz, aged_dirty. auto.
  - split; [discriminate|]. split; [discriminate|]. intros _.
    exists j. split.
    + apply list_lookup_insert_eq. rewrite addAge_set_length. auto.
    + intros i z Hne Hz. exists (aged z).
      rewrite list_lookup_insert_ne by auto.
      rewrite addAge_set_lookup, Hz, aged_dirty. auto.
Qed.

Lemma dirty_flags_after_access_witness :
  exists c' s',
    Read (ex_cache [ex_line 7 3 true true; ex_line 9 5 true false])
         (ex_access 7) = Some (true, ex_access 7, c') /\
    cache_ c' !! 0%nat = Some s' /\ (dirty_ <$> s') = [true; false].
Proof.
  assert (H : exists c',
             Read (ex_cache [ex_line 7 3 true true; ex_line 9 5 true false])
                  (ex_access 7) = Some (true, ex_access 7, c'))
    by (eexists; vm_compute; reflexivity).
  destruct H as [c' H].
  destruct (dirty_flags_after_access Read _ _ _ _ _
              [ex_line 7 3 true true; ex_line 9 5 true false]
              (or_introl eq_refl) H eq_refl) as (s' & Hs' & _).
  exists c', s'. split; [exact H|]. split; [exact Hs'|].
  vm_compute in H. injection H as <-. simpl in Hs'. injection Hs' as <-.
  reflexivity.
Defined.

(** ** The constructed store *)

(** X7.  For a valid configuration the constructor computes a number of
    sets with [numSets * A * L = C] and [numBlocks = numSets * A], and
    allocates exactly [numSets] sets of exactly [A] slots, every one of
    them the default access: not valid, not dirty, tag and age 0.  The
    counters start at 0 and the trace and the log are empty. *)
Theorem ctor_capacity_and_store A L C :
  valid_config A L C ->
  exists c, Cache_ctor A L C = Some c /\
    numSets_ c * A * L = C /\ numBlocks_ c = numSets_ c * A /\
    setSize_ c = A /\ lineSize_ c = L /\ cacheSize_ c = C /\
    Z.of_nat (length (cache_ c)) = numSets_ c /\
    (forall t s, cache_ c !! t = Some s ->
       Z.of_nat (length s) = A /\
       forall i x, s !! i = Some x -> x = Access_default) /\
    hits_ c = 0 /\ accesses_ c = 0 /\ trace_ c = [] /\ hitMiss_ c = [].
Proof.
  intros (a & l & k & Ha & Hl & Hk & -> & -> & ->).
  eexists. split; [apply Cache_ctor_pow2; lia|]. simpl.
  pose proof (Z.pow_pos_nonneg 2 (k - a - l) ltac:(lia) ltac:(lia)).
  pose proof (Z.pow_pos_nonneg 2 a ltac:(lia) ltac:(lia)).
  assert (Hprod : 2 ^ (k - a - l) * 2 ^ a = 2 ^ (k - l))
    by (rewrite <- Z.pow_add_r by lia; f_equal; lia).
  split; [rewrite <- !Z.pow_add_r by lia; f_equal; lia|].
  split; [rewrite Hprod; apply pow2_le_wrap; lia|].
  do 3 (split; [reflexivity|]).
  split; [rewrite length_replicate; lia|].
  split; [|auto].
  intros t s Hs. apply lookup_replicate in Hs as [-> _].
  split; [rewrite length_replicate; lia|].
  intros i x Hx. apply lookup_replicate in Hx as [-> _]. reflexivity.
Qed.

Lemma ctor_capacity_and_store_witness :
  exists c, Cache_ctor 2 4 64 = Some c /\ numSets_ c = 8 /\
            numBlocks_ c = 16 /\ length (cache_ c) = 8%nat.
Proof.
  destruct (ctor_capacity_and_store 2 4 64) as (c & Hc & _).
  - exists 1, 2, 6. repeat split; lia.
  - exists c. split; [exact Hc|].
    vm_compute in Hc. injection Hc as <-. repeat split.
Defined.

(** ** Invariants of the store *)

Lemma aged_index x : index_ (aged x) = index_ x.
Proof. unfold aged. destruct (valid_ x); reflexivity. Qed.

(** A slot of the target set after an access is the aged original, the
    aged original marked dirty, or the new line. *)
Lemma access_set_slot access_set s r hit s' i y :
  access_set = Read_set \/ access_set = Write_set ->
  access_set s r = Some (hit, s') ->
  s' !! i = Some y ->
  exists x, s !! i = Some x /\
    (y = aged x \/ y = setDirty (aged x) \/ (hit = false /\ y = setValid r)).
Proof.
  intros Hacc Hres Hy.
  assert (Hins : forall j z,
            <[j := z]> (addAge_set s) !! i = Some y ->
            exists x, s !! i = Some x /\ (y = aged x \/ (i = j /\ y = z))).
  { intros j z Hz.
    assert (Hi : (i < length s)%nat).
    { apply lookup_lt_Some in Hz.
      rewrite length_insert, addAge_set_length in Hz. auto. }
    destruct (lookup_lt_is_Some_2 s i Hi) as [x Hx]. exists x. split; auto.
    destruct (decide (i = j)) as [->|Hne].
    - rewrite list_lookup_insert_eq in Hz
        by (rewrite addAge_set_length; auto).
      right. split; congruence.
    - rewrite list_lookup_insert_ne in Hz by auto.
      rewrite addAge_set_lookup, Hx in Hz. left. simpl in Hz. congruence. }
  destruct (access_set_cases access_set s r hit s' Hacc Hres)
    as [(-> & j & x & Hf & Hx & Hxv & Hxt & Hcase)
       |(-> & Hf & j & Hlt & -> & _)].
  - destruct Hcase as [[_ ->]|[_ ->]].
    + rewrite addAge_set_lookup in Hy.
      destruct (s !! i) as [x0|]; [|discriminate]. injection Hy as <-.
      eauto.
    + destruct (Hins _ _ Hy) as (x0 & Hx0 & [->|[-> ->]]); eauto.
  - destruct (Hins _ _ Hy) as (x0 & Hx0 & [->|[-> ->]]); eauto 6.
Qed.

(** X8.  In every cache object reached from a constructed one by calls
    of [Read] and [Write], the configuration is the constructed one, the
    store has the same number of sets, every set has exactly [A] slots,
    and every valid line sits in the set that its own index names. *)
Theorem store_shape_invariant A L C c0 c :
  Cache_ctor A L C = Some c0 ->
  reachable c0 c ->
  (numSets_ c, lineSize_ c, setSize_ c, cacheSize_ c)
    = (numSets_ c0, L, A, C) /\
  (offsetBits_ c, indexBits_ c, tagBits_ c)
    = (offsetBits_ c0, indexBits_ c0, tagBits_ c0) /\
  length (cache_ c) = Z.to_nat (numSets_ c0) /\
  forall u s, cache_ c !! u = Some s ->
    length s = Z.to_nat A /\
    forall i x, s !! i = Some x -> valid_ x = true ->
                Z.to_nat (index_ x) = u.
Proof.
  intros Hctor Hreach.
  induction Hreach as [|c access r hit r' c' Hreach IH Hacc Hres].
  - destruct (Cache_ctor_store _ _ _ _ Hctor) as (Hstore & Hset & _).
    assert (Hcfg : lineSize_ c0 = L /\ cacheSize_ c0 = C).
    { clear - Hctor. unfold Cache_ctor in Hctor.
      destruct (calcNumSets C A L); [|discriminate].
      destruct ((C =? 0) || (L =? 0) || (A =? 0)); [discriminate|].
      injection Hctor as <-. auto. }
    destruct Hcfg as [-> ->]. rewrite Hset.
    split; [reflexivity|]. split; [reflexivity|].
    rewrite Hstore, length_replicate. split; [reflexivity|].
    intros u s Hs. apply lookup_replicate in Hs as [-> _].
    rewrite length_replicate, Hset. split; [reflexivity|].
    intros i x Hx Hv. apply lookup_replicate in Hx as [-> _]. discriminate.
  - destruct IH as (Hcfg & Hbits & Hlen & Hsets).
    destruct (access_result access c r hit r' c' Hacc Hres)
      as (aset & s & s' & Haset & _ & _ & Hs & Hset & -> & ->).
    unfold after_access. simpl.
    split; [exact Hcfg|]. split; [exact Hbits|].
    rewrite length_insert. split; [exact Hlen|].
    intros u s1 Hs1. destruct (decide (u = Z.to_nat (index_ r))) as [->|Hne].
    + rewrite list_lookup_insert_eq in Hs1 by (eapply lookup_lt_Some; eauto).
      injection Hs1 as <-.
      destruct (access_set_backward aset s r hit s' Haset Hset) as [Hl _].
      destruct (Hsets _ s Hs) as [Hls Hidx]. split; [congruence|].
      intros i y Hy Hyv.
      destruct (access_set_slot aset s r hit s' i y Haset Hset Hy)
        as (x & Hx & [->|[->|[_ ->]]]).
      * rewrite aged_valid in Hyv. rewrite aged_index. eauto.
      * simpl in Hyv. rewrite aged_valid in Hyv. simpl.
        rewrite aged_index. eauto.
      * reflexivity.
    + rewrite list_lookup_insert_ne in Hs1 by auto. eauto.
Qed.

Lemma store_shape_invariant_witness :
  length (cache_ ex_d2) = 2%nat /\
  length [Access_addAge (ex_access 1); ex_access 2] = 2%nat.
Proof.
  assert (Hreach : reachable ex_d0 ex_d2).
  { eapply (reach_step ex_d0 ex_d1 Write (ex_access 2));
      [|right; reflexivity|reflexivity].
    eapply (reach_step ex_d0 ex_d0 Read (ex_access 1));
      [|left; reflexivity|reflexivity].
    apply reach_init. }
  destruct (store_shape_invariant 2 4 16 ex_d0 ex_d2 eq_refl Hreach)
    as (_ & _ & Hlen & Hsets).
  split; [exact Hlen|].
  apply (Hsets 0%nat [Access_addAge (ex_access 1); ex_access 2] eq_refl).
Defined.

(** ** Ages along a replay *)

Lemma access_set_ages access_set s r hit s' b :
  access_set = Read_set \/ access_set = Write_set ->
  access_set s r = Some (hit, s') ->
  age_ r = 0 ->
  ages_distinct s ->
  (forall k z, s !! k = Some z -> valid_ z = true -> 0 <= age_ z < b) ->
  0 <= b <= SIZE_MAX ->
  ages_distinct s' /\
  (forall k z, s' !! k = Some z -> valid_ z = true -> 0 <= age_ z < b + 1).
Proof.
  intros Hacc Hres Hr0 Hd Hb Hmax.
  assert (Hslot : forall i y, s' !! i = Some y -> valid_ y = true ->
            (exists x, s !! i = Some x /\ valid_ x = true /\
                       age_ y = age_ x + 1) \/
            (hit = false /\ y = setValid r)).
  { intros i y Hy Hyv.
    destruct (access_set_slot access_set s r hit s' i y Hacc Hres Hy)
      as (x & Hx & [->|[->|[-> ->]]]); auto; left; exists x;
      simpl in *; rewrite aged_valid in Hyv;
      rewrite aged_no_wrap by (auto; specialize (Hb i x Hx Hyv); lia); auto. }
  split.
  - intros i j y1 y2 H1 H2 Hv1 Hv2 Heq.
    destruct (Hslot i y1 H1 Hv1) as [(x1 & Hx1 & Hxv1 & Ha1)|[Hh1 ->]];
      destruct (Hslot j y2 H2 Hv2) as [(x2 & Hx2 & Hxv2 & Ha2)|[Hh2 ->]].
    + apply (Hd i j x1 x2); auto. lia.
    + simpl in Heq. specialize (Hb i x1 Hx1 Hxv1). lia.
    + simpl in Heq. specialize (Hb j x2 Hx2 Hxv2). lia.
    + subst hit.
      destruct (access_set_cases access_set s r false s' Hacc Hres)
        as [(E & _)|(_ & _ & k & Hlt & -> & _)]; [discriminate|].
      destruct (decide (i = j)) as [|Hne]; auto. exfalso.
      destruct (decide (i = k)) as [->|Hik].
      * rewrite list_lookup_insert_ne in H2 by auto.
        rewrite addAge_set_lookup in H2.
        destruct (s !! j) as [x2|] eqn:Hx2; [|discriminate].
        injection H2 as H2. pose proof (aged_valid x2) as Hav.
        rewrite H2 in Hav. simpl in Hav. symmetry in Hav.
        pose proof (aged_no_wrap x2 Hav) as Hag.
        specialize (Hb j x2 Hx2 Hav). rewrite H2 in Hag. simpl in Hag.
        lia.
      * rewrite list_lookup_insert_ne in H1 by auto.
        rewrite addAge_set_lookup in H1.
        destruct (s !! i) as [x1|] eqn:Hx1; [|discriminate].
        injection H1 as H1. pose proof (aged_valid x1) as Hav.
        rewrite H1 in Hav. simpl in Hav. symmetry in Hav.
        pose proof (aged_no_wrap x1 Hav) as Hag.
        specialize (Hb i x1 Hx1 Hav). rewrite H1 in Hag. simpl in Hag.
        lia.
  - intros k z Hz Hv.
    destruct (Hslot k z Hz Hv) as [(x & Hx & Hxv & Ha)|[_ ->]].
    + specialize (Hb k x Hx Hxv). lia.
    + simpl. rewrite Hr0. lia.
Qed.

(** X9.  Along a replay (calls of [Read] and [Write] on accesses of age
    0, from a constructed cache, at most [SIZE_MAX] of them), after [n]
    calls every valid line has an age below [n] and no two valid lines
    of a set have the same age: the oldest line of a set is unique, and
    the tie-break of [getOldest] by slot position never decides. *)
Theorem replay_ages_distinct A L C c0 n c :
  Cache_ctor A L C = Some c0 ->
  replayed c0 n c ->
  Z.of_nat n <= SIZE_MAX ->
  forall u s, cache_ c !! u = Some s ->
    (forall i j x y, s !! i = Some x -> s !! j = Some y ->
       valid_ x = true -> valid_ y = true -> age_ x = age_ y -> i = j) /\
    (forall k z, s !! k = Some z -> valid_ z = true ->
                 0 <= age_ z < Z.of_nat n).
Proof.
  intros Hctor Hrep.
  induction Hrep as [|n c access r hit r' c' Hrep IH Hacc Hr0 Hres];
    intros Hn u s Hs.
  - destruct (Cache_ctor_store _ _ _ _ Hctor) as (Hstore & _).
    rewrite Hstore in Hs. apply lookup_replicate in Hs as [-> _].
    split.
    + intros i j x y Hx _ Hv _ _.
      apply lookup_replicate in Hx as [-> _]. discriminate.
    + intros k z Hz Hv. apply lookup_replicate in Hz as [-> _]. discriminate.
  - specialize (IH ltac:(lia)).
    destruct (access_result access c r hit r' c' Hacc Hres)
      as (aset & s0 & s' & Haset & _ & _ & Hs0 & Hset & -> & ->).
    destruct (decide (u = Z.to_nat (index_ r))) as [->|Hne].
    + erewrite after_access_lookup in Hs by eauto. injection Hs as <-.
      destruct (IH _ s0 Hs0) as [Hd Hb].
      destruct (access_set_ages aset s0 r hit s' (Z.of_nat n) Haset Hset
                  Hr0 Hd Hb ltac:(lia)) as [Hd' Hb'].
      split; [exact Hd'|]. intros k z Hz Hv.
      specialize (Hb' k z Hz Hv). lia.
    + rewrite after_access_lookup_ne in Hs by auto.
      destruct (IH _ s Hs) as [Hd Hb]. split; [exact Hd|].
      intros k z Hz Hv. specialize (Hb k z Hz Hv). lia.
Qed.

Lemma replay_ages_distinct_witness :
  0 <= age_ (Access_addAge (ex_access 1)) < 2.
Proof.
  assert (Hrep : replayed ex_d0 2 ex_d2).
  { eapply (replayed_S ex_d0 1 ex_d1 Write (ex_access 2));
      [|right; reflexivity|reflexivity|reflexivity].
    eapply (replayed_S ex_d0 0 ex_d0 Read (ex_access 1));
      [|left; reflexivity|reflexivity|reflexivity].
    apply replayed_O. }
  destruct (replay_ages_distinct 2 4 16 ex_d0 2 ex_d2 eq_refl Hrep
              ltac:(unfold SIZE_MAX, size_t_bits; simpl; lia)
              0%nat [Access_addAge (ex_access 1); ex_access 2] eq_refl)
    as [_ Hb].
  exact (Hb 0%nat (Access_addAge (ex_access 1)) eq_refl eq_refl).
Defined.

(** ** [Access::setAddress] *)

Lemma zeros_S n :
  String.concat "" (replicate (S n) "0")
  = String "0" (String.concat "" (replicate n "0")).
Proof. destruct n; reflexivity. Qed.

Lemma append_String ch s t :
  (String ch s +:+ t)%string = String ch (s +:+ t)%string.
Proof. reflexivity. Qed.

Lemma padded_facts n t :
  String.length (String.concat "" (replicate n "0") +:+ t)
    = (n + String.length t)%nat /\
  address_value (String.concat "" (replicate n "0") +:+ t)
    = address_value t /\
  all_parsed (String.concat "" (replicate n "0") +:+ t) = all_parsed t /\
  parseHex (String.concat "" (replicate n "0") +:+ t)
    = replicate (4 * n) "0"%char ++ parseHex t.
Proof.
  induction n as [|n (IH1 & IH2 & IH3 & IH4)]; [simpl; auto|].
  rewrite zeros_S, append_String.
  cbn [String.length address_value all_parsed parseHex].
  rewrite IH1, IH2, IH3, IH4. repeat split.
  - change (hex_digit_value "0") with (Some 0).
    destruct (address_value t) as [v|]; reflexivity.
  - replace (4 * S n)%nat with (S (S (S (S (4 * n))))) by lia. reflexivity.
Qed.

(** X10.  [setAddress] left-pads with zeros to exactly 8 characters: for
    an input of at most 8 characters the stored address has length 8,
    ends with the input, has the same hexadecimal value, and every other
    field of the access is untouched; an input of 8 characters is stored
    as it is.  For a longer input the unsigned count of missing
    characters wraps around and the call does not return. *)
Theorem setAddress_pads_to_eight t a :
  Z.of_nat (String.length t) <= SIZE_MAX ->
  ((String.length t <= 8)%nat ->
     exists a', setAddress t a = Some a' /\
       String.length (address_ a') = 8%nat /\
       address_ a' =
         (String.concat "" (replicate (8 - String.length t) "0") +:+ t)%string /\
       address_value (address_ a') = address_value t /\
       all_parsed (address_ a') = all_parsed t /\
       (String.length t = 8%nat -> address_ a' = t) /\
       (op_ a', refSize_ a', age_ a', valid_ a', dirty_ a')
         = (op_ a, refSize_ a, age_ a, valid_ a, dirty_ a) /\
       (tag_ a', index_ a', offset_ a') = (tag_ a, index_ a, offset_ a)) /\
  ((8 < String.length t)%nat -> setAddress t a = None).
Proof.
  intros Hsize. unfold setAddress, wrap. split.
  - intros Hlen.
    rewrite Z.mod_small
      by (unfold size_t_bits; change (2 ^ 64) with 18446744073709551616; lia).
    destruct (Z.ltb_spec 8 (8 - Z.of_nat (String.length t))); [lia|].
    replace (Z.to_nat (8 - Z.of_nat (String.length t)))
      with (8 - String.length t)%nat by lia.
    destruct (padded_facts (8 - String.length t) t) as (H1 & H2 & H3 & _).
    eexists. split; [reflexivity|]. simpl.
    split; [rewrite H1; lia|]. split; [reflexivity|].
    split; [exact H2|]. split; [exact H3|]. split; [|auto].
    intros E. rewrite E. reflexivity.
  - intros Hlen.
    replace ((8 - Z.of_nat (String.length t)) mod 2 ^ size_t_bits)
      with (2 ^ size_t_bits + 8 - Z.of_nat (String.length t)).
    + unfold SIZE_MAX, size_t_bits in *.
      change (2 ^ 64) with 18446744073709551616 in *.
      destruct (Z.ltb_spec 8 (18446744073709551616 + 8
                              - Z.of_nat (String.length t))); [reflexivity|lia].
    + unfold SIZE_MAX, size_t_bits in *.
      change (2 ^ 64) with 18446744073709551616 in *.
      apply Z.mod_unique with (q := -1); lia.
Qed.

Lemma setAddress_pads_to_eight_witness :
  exists a', setAddress "beef" (Access_op "Read") = Some a' /\
             address_ a' = "0000beef".
Proof.
  destruct (setAddress_pads_to_eight "beef" (Access_op "Read")) as [H _].
  - unfold SIZE_MAX, size_t_bits. simpl. lia.
  - destruct H as (a' & Ha & _ & Hpad & _); [simpl; lia|].
    exists a'. split; [exact Ha|]. rewrite Hpad. reflexivity.
Defined.

(** ** From hexadecimal text to a number *)

(** X11.  [parseHex] followed by [binStringToInt] reads a hexadecimal
    numeral: for a string of at most 16 characters among 0-9 and a-f the
    result is the value of the numeral, below [16 ^ length]. *)
Theorem hex_text_to_number s :
  all_parsed s = true ->
  (String.length s <= 16)%nat ->
  address_value s = Some (binStringToInt (parseHex s)) /\
  0 <= binStringToInt (parseHex s) < 16 ^ Z.of_nat (String.length s).
Proof.
  intros Hall Hlen.
  assert (Hb : length (parseHex s) = (4 * String.length s)%nat)
    by (rewrite parseHex_length, (count_parsed_all s Hall); reflexivity).
  rewrite binStringToInt_value by lia.
  split; [apply parseHex_value; exact Hall|].
  pose proof (bin_value_range (parseHex s)) as Hr. rewrite Hb in Hr.
  rewrite Nat2Z.inj_mul, Z.pow_mul_r in Hr by lia. exact Hr.
Qed.

Lemma hex_text_to_number_witness :
  binStringToInt (parseHex "00c0ffee") = 12648430.
Proof.
  pose proof (hex_text_to_number "00c0ffee" eq_refl) as H0.
  assert (Hl : (String.length "00c0ffee" <= 16)%nat) by (simpl; lia).
  destruct (H0 Hl) as [H _].
  assert (E : address_value "00c0ffee" = Some 12648430)
    by (vm_compute; reflexivity).
  rewrite E in H. congruence.
Defined.

(** X12.  [binStringToInt] on strings of at most 64 characters: the
    result is below [2 ^ length], every character other than 1 counts as
    a zero bit, and the value of a concatenation is the value of the left
    part shifted by the length of the right part plus the value of the
    right part; in particular leading zeros do not change the value. *)
Theorem binStringToInt_laws x y :
  (length (x ++ y) <= 64)%nat ->
  0 <= binStringToInt y < 2 ^ Z.of_nat (length y) /\
  binStringToInt (x ++ y)
    = binStringToInt x * 2 ^ Z.of_nat (length y) + binStringToInt y /\
  (forall ch : ascii, ch <> "1"%char -> (length y < 64)%nat ->
     binStringToInt (y ++ [ch]) = 2 * binStringToInt y) /\
  (forall n, (n + length y <= 64)%nat ->
     binStringToInt (replicate n "0"%char ++ y) = binStringToInt y).
Proof.
  intros Hlen. rewrite length_app in Hlen.
  rewrite !binStringToInt_value by (rewrite ?length_app; lia).
  split; [apply bin_value_range|]. split; [apply bin_value_app|]. split.
  - intros ch Hch Hy.
    rewrite binStringToInt_value by (rewrite length_app; simpl; lia).
    rewrite bin_value_app. simpl length.
    unfold bin_value at 2. simpl.
    destruct (Ascii.eqb_spec ch "1"); [contradiction|]. lia.
  - intros n Hn.
    rewrite binStringToInt_value by (rewrite length_app, length_replicate; lia).
    rewrite bin_value_app.
    assert (Hz : bin_value (replicate n "0"%char) = 0).
    { clear. unfold bin_value. induction n as [|n IH]; [reflexivity|].
      rewrite replicate_S_end, rev_app_distr. simpl.
      rewrite <- IH. unfold bin_value. lia. }
    rewrite Hz. lia.
Qed.

Lemma binStringToInt_laws_witness :
  binStringToInt (["1"; "0"] ++ ["1"; "1"; "x"])%char = 2 * 8 + 6.
Proof.
  destruct (binStringToInt_laws ["1"; "0"]%char ["1"; "1"; "x"]%char)
    as (_ & H & _); [simpl; lia|].
  rewrite H. vm_compute. reflexivity.
Defined.

(** ** The decoded fields are in range *)

Lemma substr_length b pos n str :
  0 <= n -> substr b pos n = Some str -> Z.of_nat (length str) <= n.
Proof.
  unfold substr. destruct (Z.of_nat (length b) <? pos); [discriminate|].
  intros Hn [= <-]. rewrite length_take. lia.
Qed.

Lemma field_value_range str n :
  0 <= n <= 64 -> Z.of_nat (length str) <= n ->
  0 <= binStringToInt str < 2 ^ n.
Proof.
  intros Hn Hlen. rewrite binStringToInt_value by lia.
  pose proof (bin_value_range str).
  pose proof (Z.pow_le_mono_r 2 (Z.of_nat (length str)) n ltac:(lia) Hlen).
  lia.
Qed.

(** X13.  Whatever the address string, well formed or not, when the three
    decoding calls return their results are in range: the index is below
    the number of sets, the offset below [2 ^ offsetBits] and the tag
    below [2 ^ tagBits] (for widths of at most 64 bits). *)
Theorem decoded_fields_in_range c s tg ix off :
  0 < numSets_ c ->
  0 <= offsetBits_ c <= 64 -> 0 <= tagBits_ c <= 64 ->
  decode c s = Some (tg, ix, off) ->
  0 <= ix < numSets_ c /\
  0 <= off < 2 ^ offsetBits_ c /\
  0 <= tg < 2 ^ tagBits_ c.
Proof.
  intros Hn Ho Ht. unfold decode, calcIndex, calcOffset, calcTag.
  destruct (substr (parseHex s) _ (indexBits_ c)) as [fi|]; [|discriminate].
  destruct (Z.eqb_spec (numSets_ c) 0); [lia|].
  destruct (substr (parseHex s) _ (offsetBits_ c)) as [fo|] eqn:Eo;
    [|discriminate].
  destruct (substr (parseHex s) 0 (tagBits_ c)) as [ft|] eqn:Et;
    [|discriminate].
  intros [= <- <- <-].
  split; [apply Z.mod_pos_bound; lia|].
  split; apply field_value_range; auto; eapply substr_length; eauto; lia.
Qed.

Lemma decoded_fields_in_range_witness :
  exists tg ix off, decode ex_e0 "z000009f" = Some (tg, ix, off) /\
                    0 <= ix < 16 /\ 0 <= off < 16.
Proof.
  assert (H : exists tg ix off, decode ex_e0 "z000009f" = Some (tg, ix, off))
    by (eexists _, _, _; vm_compute; reflexivity).
  destruct H as (tg & ix & off & H).
  destruct (decoded_fields_in_range ex_e0 "z000009f" tg ix off)
    as (Hi & Ho & _); [simpl; lia | simpl; lia | simpl; lia | exact H |].
  exists tg, ix, off. split; [exact H|]. split; [exact Hi|exact Ho].
Defined.

(** ** Building the trace *)

Lemma decode_set_trace c tr s : decode (set_trace c tr) s = decode c s.
Proof. reflexivity. Qed.

Lemma decode_calls c s :
  decode c s =
  match calcIndex c s, calcOffset c s, calcTag c s with
  | Some i, Some o, Some tg => Some (tg, i, o)
  | _, _, _ => None
  end.
Proof.
  unfold decode. destruct (calcIndex c s); [|reflexivity].
  destruct (calcOffset c s); [|reflexivity].
  destruct (calcTag c s); reflexivity.
Qed.

Lemma parse_line_record c l c' :
  parse_line c l = Some c' ->
  (l = [] /\ c' = c) \/
  (exists a, has_tokens l = true /\
             c' = set_trace c (trace_ c ++ [a]) /\ record_of_line c l a).
Proof.
  unfold parse_line. destruct l as [|tok [|refSize [|addr rest]]];
    try discriminate.
  - intros [= <-]. auto.
  - destruct (setAddress addr (setRefSize refSize (Access_op (op_of_token tok))))
      as [a1|] eqn:Ha1; [|discriminate].
    assert (Ha0 : exists a0,
              setAddress addr (Access_op (op_of_token tok)) = Some a0 /\
              address_ a1 = address_ a0 /\
              (op_ a1, refSize_ a1, age_ a1, valid_ a1, dirty_ a1)
                = (op_of_token tok, refSize, 0, true, false)).
    { unfold setAddress in *.
      destruct (8 <? wrap (8 - Z.of_nat (String.length addr)));
        [discriminate|].
      injection Ha1 as <-. eexists. split; [reflexivity|]. simpl. auto. }
    destruct Ha0 as (a0 & Ha0 & Haddr & Hrest).
    injection Hrest as Hop Href Hage Hval Hdirty.
    destruct (calcIndex c (address_ a1)) as [i|] eqn:Hi; [|discriminate].
    cbn [address_ setIndex setOffset].
    destruct (calcOffset c (address_ a1)) as [o|] eqn:Ho; [|discriminate].
    destruct (calcTag c (address_ a1)) as [tg|] eqn:Ht; [|discriminate].
    intros [= <-]. right. eexists. split; [reflexivity|].
    split; [reflexivity|].
    exists tok, refSize, addr, rest, a0. simpl.
    rewrite decode_calls, Hi, Ho, Ht. auto 10.
Qed.

(** X14.  The first loop of [operator()] appends to the trace one record
    for each line that has tokens, in the order of the lines, and skips
    the lines without tokens; it changes nothing else of the cache
    object.  Each record carries the operation chosen from the first
    token, the second token as reference size, the third token padded by
    [setAddress] as address, the three fields decoded from that padded
    address, age 0, the valid flag and no dirty flag.  In particular the
    loop only returns when every line with tokens has at least three. *)
Theorem build_trace_records lines : forall c c1,
  build_trace c lines = Some c1 ->
  exists new,
    c1 = set_trace c (trace_ c ++ new) /\
    Forall2 (record_of_line c) (List.filter has_tokens lines) new.
Proof.
  induction lines as [|l lines IH]; intros c c1; simpl build_trace.
  - intros [= <-]. exists []. rewrite app_nil_r. split; [|constructor].
    destruct c; reflexivity.
  - destruct (parse_line c l) as [c'|] eqn:Hl; [|discriminate].
    intros Hrest. destruct (IH _ _ Hrest) as (new & -> & Hnew).
    apply parse_line_record in Hl as [[-> ->]|(a & Htok & -> & Ha)].
    + exists new. auto.
    + exists (a :: new). simpl. rewrite Htok, <- app_assoc.
      split; [reflexivity|]. constructor; [exact Ha|exact Hnew].
Qed.

Lemma build_trace_records_witness :
  exists c1, build_trace ex_c0 ([] :: ex_trace) = Some c1 /\
             length (trace_ c1) = 3%nat.
Proof.
  assert (H : exists c1, build_trace ex_c0 ([] :: ex_trace) = Some c1)
    by (eexists; vm_compute; reflexivity).
  destruct H as [c1 H]. exists c1. split; [exact H|].
  destruct (build_trace_records _ _ _ H) as (new & -> & Hnew).
  apply Forall2_length in Hnew. simpl in *. lia.
Defined.

(** ** [Cache::Display] *)

Lemma Display_loop_defined tr : forall k hm,
  (k + length tr <= length hm)%nat ->
  exists rows, Display_loop tr k hm = Some rows /\
    length rows = length tr /\
    row_hit <$> rows = take (length tr) (drop k hm) /\
    row_num <$> rows = seq k (length tr) /\
    Forall2 (fun a row =>
               (row_op row, row_address row) = (op_ a, address_ a) /\
               (row_tag row, row_index row, row_offset row)
                 = (tag_ a, index_ a, offset_ a)) tr rows.
Proof.
  induction tr as [|a tr IH]; intros k hm Hlen; simpl in *.
  - exists []. repeat split; constructor.
  - destruct (lookup_lt_is_Some_2 hm k ltac:(lia)) as [h Hh]. rewrite Hh.
    destruct (IH (S k) hm ltac:(lia)) as (rows & -> & Hl & Hhit & Hnum & Hfld).
    eexists. split; [reflexivity|]. rewrite !fmap_cons. simpl.
    rewrite Hl, Hhit, Hnum.
    split; [reflexivity|]. split.
    + rewrite (drop_S hm h k Hh). reflexivity.
    + split; [reflexivity|]. constructor; auto.
Qed.

Lemma Display_loop_short tr : forall k hm,
  tr <> [] -> (length hm < k + length tr)%nat ->
  Display_loop tr k hm = None.
Proof.
  induction tr as [|a tr IH]; intros k hm Hne Hlen; [congruence|].
  simpl in *. destruct (hm !! k) as [h|] eqn:Hh; [|reflexivity].
  apply lookup_lt_Some in Hh.
  rewrite (IH (S k) hm); [reflexivity| |lia].
  destruct tr; [simpl in Hlen; lia|discriminate].
Qed.

Lemma Display_rows_defined_aux c :
  ((length (trace_ c) <= length (hitMiss_ c))%nat ->
   exists rows, Display_rows c = Some rows /\
     length rows = length (trace_ c) /\
     row_hit <$> rows = take (length (trace_ c)) (hitMiss_ c) /\
     row_num <$> rows = seq 0 (length (trace_ c))) /\
  ((length (hitMiss_ c) < length (trace_ c))%nat -> Display_rows c = None).
Proof.
  unfold Display_rows. split.
  - intros H.
    destruct (Display_loop_defined (trace_ c) 0%nat (hitMiss_ c) ltac:(lia))
      as (rows & H1 & H2 & H3 & H4 & _).
    exists rows. auto.
  - intros H. apply Display_loop_short; [|lia].
    destruct (trace_ c); [simpl in H; lia|discriminate].
Qed.

(** X15.  The table of [Display] has one row per record of the trace, in
    order and numbered from 0, each with the operation, address, tag,
    index and offset of its record and the outcome stored at the same
    position of the log.  It is defined exactly when the log is at least
    as long as the trace: with a shorter log the loop reads the log past
    its end. *)
Theorem Display_rows_defined c :
  ((length (trace_ c) <= length (hitMiss_ c))%nat ->
   exists rows, Display_rows c = Some rows /\
     length rows = length (trace_ c) /\
     row_hit <$> rows = take (length (trace_ c)) (hitMiss_ c) /\
     row_num <$> rows = seq 0 (length (trace_ c)) /\
     Forall2 (fun a row =>
                (row_op row, row_address row) = (op_ a, address_ a) /\
                (row_tag row, row_index row, row_offset row)
                  = (tag_ a, index_ a, offset_ a)) (trace_ c) rows) /\
  ((length (hitMiss_ c) < length (trace_ c))%nat -> Display_rows c = None).
Proof.
  unfold Display_rows. split.
  - intros H. apply (Display_loop_defined (trace_ c) 0%nat (hitMiss_ c)). lia.
  - intros H. apply Display_loop_short; [|lia].
    destruct (trace_ c); [simpl in H; lia|discriminate].
Qed.

Lemma Display_rows_defined_witness :
  exists c rows, simulate 1 4 16 ex_trace = Some c /\
    Display_rows c = Some rows /\ length rows = 3%nat.
Proof.
  assert (H : exists c, simulate 1 4 16 ex_trace = Some c)
    by (eexists; vm_compute; reflexivity).
  destruct H as [c H].
  destruct (Display_rows_defined c) as [Hdef _].
  destruct Hdef as (rows & Hrows & Hlen & _).
  - vm_compute in H. injection H as <-. simpl. lia.
  - exists c, rows. split; [exact H|]. split; [exact Hrows|].
    rewrite Hlen. vm_compute in H. injection H as <-. reflexivity.
Defined.

(** ** A whole run *)

Lemma tallied_length_all ops :
  tallied ops = length ops -> Forall (fun o => is_tallied o = true) ops.
Proof.
  induction ops as [|o ops IH]; simpl; [constructor|].
  pose proof (tallied_le ops) as Hle. destruct (is_tallied o) eqn:E; [|lia].
  intros Heq. constructor; [exact E|]. apply IH. lia.
Qed.

Lemma is_tallied_iff o : is_tallied o = true <-> o = "Read" \/ o = "Write".
Proof.
  unfold is_tallied. rewrite orb_true_iff, !String.eqb_eq. tauto.
Qed.

Lemma build_trace_length lines : forall c c1,
  build_trace c lines = Some c1 ->
  (length (trace_ c1) <= length (trace_ c) + length lines)%nat.
Proof.
  induction lines as [|l lines IH]; intros c c1; simpl.
  - intros [= <-]. lia.
  - destruct (parse_line c l) as [c'|] eqn:Hl; [|discriminate].
    intros Hrest. apply IH in Hrest.
    apply parse_line_spec in Hl as [->|(a & -> & _)]; simpl in *;
      rewrite ?length_app in *; simpl in *; lia.
Qed.

(** The cache object at the end of [operator()] satisfies the loop
    invariant at the end of its trace. *)
Lemma operator_call_inv A L C lines c0 c :
  0 <= A -> 0 <= C ->
  Cache_ctor A L C = Some c0 ->
  operator_call c0 lines = Some c ->
  Z.of_nat (length lines) < SIZE_MAX ->
  loop_inv (op_ <$> trace_ c) (length (trace_ c)) c /\
  (length (trace_ c) <= length lines)%nat.
Proof.
  intros HA HC Hctor Hcall Hlen. unfold operator_call in Hcall.
  destruct (build_trace c0 lines) as [c1|] eqn:Hbuild; [|discriminate].
  pose proof (build_trace_length _ _ _ Hbuild) as Hl.
  destruct (Cache_ctor_store _ _ _ _ Hctor) as (_ & _ & _ & _ & Htr & _).
  rewrite Htr in Hl. simpl in Hl.
  pose proof (loop_inv_start A L C lines c0 c1 HA HC Hctor Hbuild) as Hinv.
  destruct (process_loop_inv (op_ <$> trace_ c1) (length (trace_ c1)) 0%nat
              c1 Hinv) as (c' & Hloop & Hinv');
    rewrite ?length_fmap; try lia.
  rewrite Hloop in Hcall. injection Hcall as <-. simpl in Hinv'.
  pose proof (inv_ops _ _ _ Hinv') as Hops.
  assert (Hsame : length (trace_ c') = length (trace_ c1)).
  { rewrite <- (length_fmap op_ (trace_ c')), Hops, length_fmap. auto. }
  rewrite Hops, Hsame. split; [exact Hinv'|lia].
Qed.

(** X16.  After a run of [operator()] on a constructed cache, the table
    of [Display] is defined exactly when every record of the trace is a
    Read or a Write (one record with another operation makes the loop
    read the log past its end); when it is defined its outcomes are the
    whole log.  The two totals of the summary are the number of hits and
    the number of misses in the log. *)
Theorem Display_after_run A L C lines c0 c :
  0 <= A -> 0 <= C ->
  Cache_ctor A L C = Some c0 ->
  operator_call c0 lines = Some c ->
  Z.of_nat (length lines) < SIZE_MAX ->
  ((exists rows, Display_rows c = Some rows) <->
   Forall (fun a => op_ a = "Read" \/ op_ a = "Write") (trace_ c)) /\
  (forall rows, Display_rows c = Some rows ->
     length rows = length (trace_ c) /\ row_hit <$> rows = hitMiss_ c) /\
  Display_totals c = (count_hits (hitMiss_ c), count_misses (hitMiss_ c)).
Proof.
  intros HA HC Hctor Hcall Hlen.
  destruct (operator_call_inv A L C lines c0 c HA HC Hctor Hcall Hlen)
    as [[_ _ _ Hlog Hacs Hhits] Hle].
  rewrite <- (length_fmap op_ (trace_ c)), firstn_all in Hlog, Hacs.
  pose proof (tallied_le (op_ <$> trace_ c)) as Htl.
  rewrite length_fmap in Htl.
  destruct (Display_rows_defined_aux c) as [Hdef Hundef].
  assert (Hiff : (length (trace_ c) <= length (hitMiss_ c))%nat <->
                 Forall (fun a => op_ a = "Read" \/ op_ a = "Write")
                        (trace_ c)).
  { split.
    - intros H. assert (E : tallied (op_ <$> trace_ c)
                            = length (op_ <$> trace_ c))
        by (rewrite length_fmap; lia).
      apply tallied_length_all in E. rewrite Forall_fmap in E.
      eapply Forall_impl; [exact E|]. intros a Ha. simpl in Ha.
      apply is_tallied_iff. exact Ha.
    - intros H. rewrite Hlog, tallied_all; [rewrite length_fmap; lia|].
      rewrite Forall_fmap. eapply Forall_impl; [exact H|].
      intros a Ha. simpl. apply is_tallied_iff. exact Ha. }
  split; [|split].
  - rewrite <- Hiff. split.
    + intros [rows Hrows].
      destruct (le_lt_dec (length (trace_ c)) (length (hitMiss_ c)))
        as [|Hlt]; auto.
      rewrite (Hundef Hlt) in Hrows. discriminate.
    + intros H. destruct (Hdef H) as (rows & Hrows & _). eauto.
  - intros rows Hrows.
    destruct (le_lt_dec (length (trace_ c)) (length (hitMiss_ c)))
      as [Hok|Hlt]; [|rewrite (Hundef Hlt) in Hrows; discriminate].
    destruct (Hdef Hok) as (rows' & Hrows' & Hl & Hh & _).
    assert (rows' = rows) as -> by congruence.
    split; [exact Hl|]. rewrite Hh. apply take_ge. lia.
  - unfold Display_totals. rewrite Hhits, Hacs, <- Hlog.
    pose proof (count_hits_misses (hitMiss_ c)).
    pose proof (count_hits_range (hitMiss_ c)). f_equal.
    replace (Z.of_nat (length (hitMiss_ c)) - count_hits (hitMiss_ c))
      with (count_misses (hitMiss_ c)) by lia.
    apply wrap_small. lia.
Qed.

Lemma Display_after_run_witness :
  exists c, simulate 1 4 16 ex_trace_unknown_op = Some c /\
            length (trace_ c) = 1%nat /\ Display_rows c = None.
Proof.
  assert (H : exists c, operator_call ex_c0 ex_trace_unknown_op = Some c)
    by (eexists; vm_compute; reflexivity).
  destruct H as [c H]. exists c. split; [exact H|].
  destruct (Display_after_run 1 4 16 ex_trace_unknown_op ex_c0 c)
    as ([Hrows _] & _); [lia | lia | reflexivity | exact H
                        | vm_compute; reflexivity |].
  vm_compute in H. injection H as <-. split; [reflexivity|].
  destruct (Display_rows _) as [rows|] eqn:E; [|reflexivity].
  exfalso. specialize (Hrows (ex_intro _ rows eq_refl)).
  inversion Hrows as [|a tr [Ha|Ha] _]; discriminate Ha.
Defined.

Lemma setAddress_short t a :
  (String.length t <= 8)%nat ->
  exists a', setAddress t a = Some a' /\
    String.length (address_ a') = 8%nat /\
    all_parsed (address_ a') = all_parsed t /\
    op_ a' = op_ a.
Proof.
  intros Hlen. unfold setAddress, wrap.
  rewrite Z.mod_small
    by (unfold size_t_bits; change (2 ^ 64) with 18446744073709551616; lia).
  destruct (Z.ltb_spec 8 (8 - Z.of_nat (String.length t))); [lia|].
  replace (Z.to_nat (8 - Z.of_nat (String.length t)))
    with (8 - String.length t)%nat by lia.
  destruct (padded_facts (8 - String.length t) t) as (H1 & _ & H3 & _).
  eexists. split; [reflexivity|]. simpl.
  split; [rewrite H1; lia|]. split; [exact H3|reflexivity].
Qed.

(** The conditions on the configuration under which every address of 8
    known digits is decoded. *)
Lemma parse_line_well_formed c l :
  0 <= offsetBits_ c -> 0 <= indexBits_ c ->
  offsetBits_ c + indexBits_ c <= 32 -> numSets_ c <> 0 ->
  well_formed_line l ->
  exists a, parse_line c l = Some (set_trace c (trace_ c ++ [a])) /\
            op_ a = op_of_token (List.hd ""%string l).
Proof.
  intros Ho Hi Hsum Hn (tok & refSize & addr & -> & Hlen & Hall).
  unfold parse_line.
  destruct (setAddress_short addr
              (setRefSize refSize (Access_op (op_of_token tok))) Hlen)
    as (a1 & -> & Hl8 & Hall8 & Hop).
  assert (Hdec : decode c (address_ a1) <> None).
  { rewrite (decode_None_iff c (address_ a1) Ho Hi Hsum Hn).
    rewrite parseHex_length, count_parsed_all, Hl8 by congruence.
    simpl. lia. }
  rewrite decode_calls in Hdec.
  destruct (calcIndex c (address_ a1)) as [i|]; [|congruence].
  cbn [address_ setIndex setOffset].
  destruct (calcOffset c (address_ a1)) as [o|]; [|congruence].
  destruct (calcTag c (address_ a1)) as [tg|]; [|congruence].
  eexists. split; [reflexivity|]. simpl. exact Hop.
Qed.

Lemma build_trace_well_formed lines : forall c,
  0 <= offsetBits_ c -> 0 <= indexBits_ c ->
  offsetBits_ c + indexBits_ c <= 32 -> numSets_ c <> 0 ->
  Forall well_formed_line lines ->
  exists new, build_trace c lines = Some (set_trace c (trace_ c ++ new)) /\
    op_ <$> new = (fun l => op_of_token (List.hd ""%string l)) <$> lines.
Proof.
  induction lines as [|l lines IH]; intros c Ho Hi Hsum Hn Hwf.
  - exists []. simpl. rewrite app_nil_r. split; [|reflexivity].
    destruct c; reflexivity.
  - inversion Hwf as [|? ? Hl Hrest]; subst.
    destruct (parse_line_well_formed c l Ho Hi Hsum Hn Hl) as (a & Hp & Hop).
    simpl build_trace. rewrite Hp.
    destruct (IH (set_trace c (trace_ c ++ [a])) Ho Hi Hsum Hn Hrest)
      as (new & -> & Hnew).
    exists (a :: new). rewrite !fmap_cons, Hnew, Hop.
    simpl. rewrite <- app_assoc. split; reflexivity.
Qed.

(** X17.  A well-formed run returns: for a valid configuration with
    [log2 C + log2 L <= 32] and a trace file of fewer than [SIZE_MAX]
    lines, each of three tokens with an address of at most 8 characters
    among 0-9 and a-f, the construction, the building of the trace and
    the replay all return.  The trace has one record per line, with the
    operation chosen from its first token, the log has one outcome per
    Read or Write record, the access counter is the length of the log and
    the hit counter the number of hits in it. *)
Theorem well_formed_run_returns A L C lines :
  valid_config A L C ->
  Z.log2 C + Z.log2 L <= 32 ->
  Forall well_formed_line lines ->
  Z.of_nat (length lines) < SIZE_MAX ->
  exists c, simulate A L C lines = Some c /\
    op_ <$> trace_ c = (fun l => op_of_token (List.hd ""%string l)) <$> lines /\
    length (hitMiss_ c) = tallied (op_ <$> trace_ c) /\
    accesses_ c = Z.of_nat (length (hitMiss_ c)) /\
    hits_ c = count_hits (hitMiss_ c).
Proof.
  intros (a & l & k & Ha & Hl & Hk & -> & -> & ->) Hfit Hwf Hlen.
  rewrite !Z.log2_pow2 in Hfit by lia.
  pose proof (Cache_ctor_pow2 a l k Ha Hl Hk) as Hctor.
  unfold simulate. rewrite Hctor.
  pose proof (Z.pow_pos_nonneg 2 (k - a - l) ltac:(lia) ltac:(lia)).
  pose proof (Z.pow_pos_nonneg 2 a ltac:(lia) ltac:(lia)).
  pose proof (Z.pow_pos_nonneg 2 k ltac:(lia) ltac:(lia)).
  match type of Hctor with _ = Some ?c => set (c0 := c) in * end.
  destruct (build_trace_well_formed lines c0) as (new & Hbuild & Hops);
    [simpl; lia | simpl; lia | simpl; lia | simpl; lia | exact Hwf |].
  assert (Hnew : length new = length lines).
  { rewrite <- (length_fmap op_ new), Hops, length_fmap. reflexivity. }
  unfold operator_call. rewrite Hbuild.
  pose proof (loop_inv_start (2 ^ a) (2 ^ l) (2 ^ k) lines c0 _
                ltac:(lia) ltac:(lia) Hctor Hbuild) as Hinv.
  destruct (process_loop_inv _ (length (trace_ (set_trace c0 (trace_ c0 ++ new))))
              0%nat _ Hinv) as (c' & Hloop & [Hops' _ _ Hlog Hacs Hhits]).
  { rewrite length_fmap. simpl. lia. }
  { rewrite length_fmap. simpl. lia. }
  exists c'. split; [exact Hloop|].
  simpl in Hops', Hlog, Hacs.
  rewrite <- (length_fmap op_ new), firstn_all in Hlog, Hacs.
  rewrite Hops'. split; [rewrite Hops; reflexivity|].
  split; [exact Hlog|]. split; [rewrite Hacs, Hlog; reflexivity|exact Hhits].
Qed.

Lemma well_formed_run_returns_witness :
  exists c, simulate 2 4 64 [["W"; "4"; "beef"]; ["R"; "1"; "0000beec"]]
            = Some c /\ length (hitMiss_ c) = 2%nat.
Proof.
  destruct (well_formed_run_returns 2 4 64
              [["W"; "4"; "beef"]; ["R"; "1"; "0000beec"]])
    as (c & Hc & Hops & Hlog & _).
  - exists 1, 2, 6. repeat split; lia.
  - vm_compute. discriminate.
  - constructor; [|constructor; [|constructor]]; eexists _, _, _;
      (split; [reflexivity|]); (split; [simpl; lia|reflexivity]).
  - vm_compute. reflexivity.
  - exists c. split; [exact Hc|]. rewrite Hlog, Hops. reflexivity.
Defined.

(** ** Hits *)

(** X18.  The outcome of a call of [Read] or [Write] is a hit exactly
    when, before the call, the target set holds a valid line with the tag
    of the access; ages and dirty flags play no part in it. *)
Theorem hit_iff_tag_resident
    (access : Cache -> Access -> option (bool * Access * Cache))
    c r hit r' c' s :
  access = Read \/ access = Write ->
  access c r = Some (hit, r', c') ->
  cache_ c !! Z.to_nat (index_ r) = Some s ->
  (hit = true <->
   exists k z, s !! k = Some z /\ valid_ z = true /\ tag_ z = tag_ r).
Proof.
  intros Hacc Hres Hs.
  destruct (access_result access c r hit r' c' Hacc Hres)
    as (aset & s0 & s' & Haset & _ & _ & Hs0 & Hset & _ & _).
  assert (s0 = s) as -> by congruence.
  destruct (access_set_cases aset s r hit s' Haset Hset)
    as [(-> & j & x & Hf & Hx & Hxv & Hxt & _)|(-> & Hf & _)].
  - split; eauto.
  - split; [discriminate|]. intros (k & z & Hk & Hzv & Hzt). exfalso.
    rewrite findTag_None in Hf. apply (Hf k z Hk). auto.
Qed.

Lemma hit_iff_tag_resident_witness :
  exists c', Read (ex_cache [ex_line 7 3 true false; ex_line 9 5 false false])
                  (ex_access 9) = Some (false, ex_access 9, c').
Proof.
  assert (H : exists hit c',
             Read (ex_cache [ex_line 7 3 true false; ex_line 9 5 false false])
                  (ex_access 9) = Some (hit, ex_access 9, c'))
    by (eexists _, _; vm_compute; reflexivity).
  destruct H as (hit & c' & H). exists c'.
  destruct (hit_iff_tag_resident Read _ _ _ _ _
              [ex_line 7 3 true false; ex_line 9 5 false false]
              (or_introl eq_refl) H eq_refl) as [Hhit _].
  destruct hit; [|exact H]. exfalso.
  destruct (Hhit eq_refl) as ([|[|k]] & z & Hz & Hv & Ht); simpl in Hz;
    try discriminate; injection Hz as <-; discriminate.
Defined.

(** X19.  No hit without an earlier access: along any sequence of calls
    of [Read] and [Write] from a constructed cache, a call only returns a
    hit when an earlier call of the sequence was made for the same set
    index and the same tag.  The first reference to a line is a miss. *)
Theorem hit_needs_earlier_access A L C c0 h c
    (access : Cache -> Access -> option (bool * Access * Cache)) r r' c' :
  Cache_ctor A L C = Some c0 ->
  replayed_hist c0 h c ->
  access = Read \/ access = Write ->
  access c r = Some (true, r', c') ->
  exists r0, In r0 h /\ tag_ r0 = tag_ r /\
             Z.to_nat (index_ r0) = Z.to_nat (index_ r).
Proof.
  intros Hctor Hhist Hacc Hres.
  assert (Hinv : forall u s i x, cache_ c !! u = Some s -> s !! i = Some x ->
            valid_ x = true ->
            exists r0, In r0 h /\ tag_ r0 = tag_ x /\ Z.to_nat (index_ r0) = u).
  { clear Hacc Hres.
    induction Hhist as [|h c acc q hit q' c1 Hhist IH Hacc Hres].
    - destruct (Cache_ctor_store _ _ _ _ Hctor) as (Hstore & _).
      intros u s i x Hs Hx Hv. rewrite Hstore in Hs.
      apply lookup_replicate in Hs as [-> _].
      apply lookup_replicate in Hx as [-> _]. discriminate.
    - destruct (access_result acc c q hit q' c1 Hacc Hres)
        as (aset & s0 & s' & Haset & _ & _ & Hs0 & Hset & -> & ->).
      assert (Hold : forall u s i x, cache_ c !! u = Some s ->
                s !! i = Some x -> valid_ x = true ->
                exists r0, In r0 (h ++ [q]) /\ tag_ r0 = tag_ x /\
                           Z.to_nat (index_ r0) = u).
      { intros u s i x Hs Hx Hv.
        destruct (IH u s i x Hs Hx Hv) as (r0 & Hin & Ht & Hi).
        exists r0. split; [apply in_or_app; auto|auto]. }
      intros u s i y Hs Hy Hv.
      destruct (decide (u = Z.to_nat (index_ q))) as [->|Hne].
      + erewrite after_access_lookup in Hs by eauto. injection Hs as <-.
        destruct (access_set_slot aset s0 q hit s' i y Haset Hset Hy)
          as (x & Hx & [->|[->|[_ ->]]]).
        * rewrite aged_valid in Hv. rewrite aged_tag. eauto.
        * simpl in Hv. rewrite aged_valid in Hv. simpl. rewrite aged_tag.
          eauto.
        * exists q. split; [apply in_or_app; simpl; auto|]. auto.
      + rewrite after_access_lookup_ne in Hs by auto. eauto. }
  destruct (access_result access c r true r' c' Hacc Hres)
    as (aset & s & s' & Haset & _ & _ & Hs & Hset & _ & _).
  destruct (access_set_cases aset s r true s' Haset Hset)
    as [(_ & j & x & _ & Hx & Hxv & Hxt & _)|(E & _)]; [|discriminate].
  destruct (Hinv _ s j x Hs Hx Hxv) as (r0 & Hin & Ht & Hi).
  exists r0. split; [exact Hin|]. split; [congruence|exact Hi].
Qed.

Lemma hit_needs_earlier_access_witness :
  exists r0, In r0 [ex_access 1; ex_access 2] /\ tag_ r0 = 1.
Proof.
  assert (Hhist : replayed_hist ex_d0 ([] ++ [ex_access 1] ++ [ex_access 2])
                    ex_d2).
  { rewrite app_assoc.
    eapply (hist_snoc ex_d0 _ ex_d1 Write (ex_access 2));
      [|right; reflexivity|reflexivity].
    eapply (hist_snoc ex_d0 [] ex_d0 Read (ex_access 1));
      [|left; reflexivity|reflexivity].
    apply hist_nil. }
  assert (H : exists c', Read ex_d2 (ex_access 1)
                         = Some (true, ex_access 1, c'))
    by (eexists; vm_compute; reflexivity).
  destruct H as [c' H].
  destruct (hit_needs_earlier_access 2 4 16 ex_d0 _ ex_d2 Read (ex_access 1)
              _ c' eq_refl Hhist (or_introl eq_refl) H)
    as (r0 & Hin & Ht & _).
  exists r0. split; [exact Hin|exact Ht].
Defined.

(** ** The trace is read-only *)

Lemma setValid_valid a : valid_ a = true -> setValid a = a.
Proof. destruct a; simpl; intros ->; reflexivity. Qed.

Lemma process_step_trace c i c' :
  Forall (fun a => valid_ a = true) (trace_ c) ->
  process_step c i = Some c' ->
  trace_ c' = trace_ c.
Proof.
  intros Hval. unfold process_step.
  destruct (trace_ c !! i) as [a|] eqn:Ha; [|discriminate].
  assert (Hv : valid_ a = true)
    by (rewrite Forall_lookup in Hval; apply (Hval i a Ha)).
  assert (Hstep : forall access : Cache -> Access -> option (bool * Access * Cache),
            access = Read \/ access = Write ->
            forall res, access c a = Some res ->
              <[i := snd (fst res)]> (trace_ (snd res)) = trace_ c).
  { intros access Hacc [[hit a'] c1] Hres. simpl.
    destruct (access_result access c a hit a' c1 Hacc Hres)
      as (_ & _ & s' & _ & _ & _ & _ & _ & -> & ->).
    simpl. apply list_insert_id.
    destruct hit; [exact Ha|]. rewrite setValid_valid; auto. }
  destruct (String.eqb (op_ a) "Read").
  - destruct (Read c a) as [res|] eqn:Hres; [|discriminate].
    intros [= <-]. simpl. apply (Hstep Read); auto.
  - destruct (String.eqb (op_ a) "Write").
    + destruct (Write c a) as [res|] eqn:Hres; [|discriminate].
      intros [= <-]. simpl. apply (Hstep Write); auto.
    + intros [= <-]. reflexivity.
Qed.

Lemma process_loop_trace n : forall i c c',
  Forall (fun a => valid_ a = true) (trace_ c) ->
  process_loop n i c = Some c' ->
  trace_ c' = trace_ c.
Proof.
  induction n as [|n IH]; intros i c c' Hval; simpl.
  - intros [= <-]. reflexivity.
  - destruct (process_step c i) as [c1|] eqn:Hstep; [|discriminate].
    pose proof (process_step_trace c i c1 Hval Hstep) as Htr.
    intros Hloop. rewrite <- Htr. apply (IH (S i) c1 c'); auto.
    rewrite Htr. exact Hval.
Qed.

(** X20.  The replay never alters the trace: every record is built valid
    by the first loop, so marking it valid on a miss changes nothing, and
    after [operator()] the trace is exactly the list of records that the
    first loop built, each still of age 0 and not dirty. *)
Theorem replay_keeps_trace A L C lines c0 c1 c n i :
  Cache_ctor A L C = Some c0 ->
  build_trace c0 lines = Some c1 ->
  process_loop n i c1 = Some c ->
  trace_ c = trace_ c1 /\
  Forall (fun a => valid_ a = true /\ age_ a = 0 /\ dirty_ a = false)
         (trace_ c).
Proof.
  intros Hctor Hbuild Hloop.
  destruct (build_trace_spec _ _ _ Hbuild) as (new & -> & Hnew).
  destruct (Cache_ctor_store _ _ _ _ Hctor) as (_ & _ & _ & _ & Htr & _).
  simpl in *. rewrite Htr in *. simpl in *.
  assert (Hfresh : Forall (fun a => valid_ a = true /\ age_ a = 0 /\
                                    dirty_ a = false) new).
  { eapply Forall_impl; [exact Hnew|].
    intros a (Ha & Hv & Hd & _). auto. }
  assert (Hsame : trace_ c = new).
  { apply (process_loop_trace n i (set_trace c0 new) c); [|exact Hloop].
    simpl. eapply Forall_impl; [exact Hfresh|]. intros a H. apply H. }
  rewrite Hsame. split; [reflexivity|exact Hfresh].
Qed.

Lemma replay_keeps_trace_witness :
  exists c, process_loop 3 0%nat ex_c1 = Some c /\ trace_ c = trace_ ex_c1.
Proof.
  assert (H : exists c, process_loop 3 0%nat ex_c1 = Some c)
    by (eexists; vm_compute; reflexivity).
  destruct H as [c H]. exists c. split; [exact H|].
  destruct (replay_keeps_trace 1 4 16 ex_trace ex_c0 ex_c1 c 3 0%nat
              eq_refl eq_refl H) as [Htr _].
  exact Htr.
Defined.


(** ** The counters on a trace of reads and writes *)

(** C7.  On a trace whose records are all Reads or Writes (shorter than
    [SIZE_MAX], on a cache constructed from unsigned configuration
    numbers), after every processed access, that is after any number [n]
    of iterations of the replay loop, the loop has returned and the
    outcome log, the access counter and the processed part of the trace
    all have length [n]; the hit counter is the number of hits in the log
    and is at most the access counter, and hits plus misses is the access
    counter.  At the end of the trace the three lengths are the length of
    the whole trace. *)
Theorem outcomes_accesses_processed_agree A L C lines c0 c1 n :
  0 <= A -> 0 <= C ->
  Cache_ctor A L C = Some c0 ->
  build_trace c0 lines = Some c1 ->
  Forall (fun a => op_ a = "Read" \/ op_ a = "Write") (trace_ c1) ->
  Z.of_nat (length (trace_ c1)) < SIZE_MAX ->
  (n <= length (trace_ c1))%nat ->
  exists c',
    process_loop n 0%nat c1 = Some c' /\
    length (hitMiss_ c') = n /\
    accesses_ c' = Z.of_nat n /\
    length (take n (trace_ c')) = n /\
    hits_ c' = count_hits (hitMiss_ c') /\
    0 <= hits_ c' <= accesses_ c' /\
    hits_ c' + count_misses (hitMiss_ c') = accesses_ c' /\
    (n = length (trace_ c1) ->
     length (hitMiss_ c') = length (trace_ c') /\
     accesses_ c' = Z.of_nat (length (trace_ c'))).
Proof.
  intros HA HC Hctor Hbuild Hall Hlen Hn.
  pose proof (loop_inv_start A L C lines c0 c1 HA HC Hctor Hbuild) as Hinv.
  destruct (process_loop_inv (op_ <$> trace_ c1) n 0%nat c1 Hinv)
    as (c' & Hloop & [Hops _ _ Hlog Hacs Hhits]);
    rewrite ?length_fmap; try lia.
  simpl in Hlog, Hacs.
  assert (Htal : tallied (take n (op_ <$> trace_ c1)) = n).
  { rewrite <- fmap_take, tallied_all.
    - rewrite length_fmap, length_take. lia.
    - rewrite Forall_fmap. apply Forall_take.
      eapply Forall_impl; [exact Hall|].
      intros a [E|E]; simpl; unfold is_tallied; rewrite E; reflexivity. }
  rewrite Htal in Hlog, Hacs.
  assert (Hlt : length (trace_ c') = length (trace_ c1)).
  { rewrite <- (length_fmap op_ (trace_ c')), Hops, length_fmap. auto. }
  pose proof (count_hits_range (hitMiss_ c')).
  pose proof (count_hits_misses (hitMiss_ c')).
  exists c'. split; [exact Hloop|]. split; [exact Hlog|].
  split; [exact Hacs|]. split; [rewrite length_take; lia|].
  split; [exact Hhits|]. split; [lia|]. split; [lia|].
  intros ->. rewrite Hlt. split; [exact Hlog|exact Hacs].
Qed.

Lemma outcomes_accesses_processed_agree_witness :
  exists c', process_loop 2 0%nat ex_c1 = Some c' /\
    length (hitMiss_ c') = 2%nat /\ accesses_ c' = 2.
Proof.
  destruct (outcomes_accesses_processed_agree 1 4 16 ex_trace ex_c0 ex_c1 2%nat)
    as (c' & Hloop & Hlog & Hacs & _).
  - lia.
  - lia.
  - reflexivity.
  - reflexivity.
  - simpl. repeat constructor.
  - vm_compute. reflexivity.
  - simpl. lia.
  - exists c'. split; [exact Hloop|]. split; [exact Hlog|exact Hacs].
Defined.
